(** * PokemonExplorer: the catalog store and its fetch controllers

    A shallow embedding of
      - [store/pokemonStore.ts]   (the Zustand store),
      - [hooks/useFetchItems.ts]  (initial load, incremental load, refresh),
      - [hooks/usePokemonDetail.ts] (detail fetch and reset),
      - [api/pokemonApi.ts]       ([getErrorMessage]),
      - [screens/PokemonListScreen.tsx] ([handleEndReached]),
    and the properties of the paginated-list lifecycle proved over it.

    Conventions of the embedding.
      - JS strings are [string]; [toLowerCase] maps the ASCII capitals and
        leaves every other code unit alone; [includes] is substring search.
      - JS numbers that hold identifiers, limits and offsets are [Z].
      - [T | null] is [option T].
      - An [async] function with one [await] is a value of [Async]: either it
        returned before awaiting, or it is suspended on a request together with
        the continuation that runs when the promise settles. *)

From Stdlib Require Import ZArith Bool Ascii String List Lia.
From stdpp Require Import base list.
Import ListNotations.

Local Open Scope string_scope.
Local Open Scope Z_scope.

(** ** JavaScript primitives used by the store *)

Module Js.

(** A string used as a condition: the empty string is the only falsy one. *)
Definition truthy (s : string) : bool :=
  match s with
  | EmptyString => false
  | String _ _ => true
  end.

Definition lower_ascii (c : ascii) : ascii :=
  let n := nat_of_ascii c in
  if ((65 <=? n)%nat && (n <=? 90)%nat)%bool then ascii_of_nat (n + 32) else c.

(** [String.prototype.toLowerCase]. *)
Fixpoint toLowerCase (s : string) : string :=
  match s with
  | EmptyString => EmptyString
  | String c rest => String (lower_ascii c) (toLowerCase rest)
  end.

(** [hay.includes(needle)]: [needle] occurs in [hay] at some position. *)
Fixpoint includes (hay needle : string) : bool :=
  if String.prefix needle hay then true
  else match hay with
       | EmptyString => false
       | String _ rest => includes rest needle
       end.

End Js.

(** ** Types ([types/index.ts]) *)

Record Pokemon := mkPokemon {
  id : Z;
  name : string;
  url : string;
  imageUrl : string;
  types : list string;
}.

Record NamedResource := mkNamed { res_name : string; res_url : string }.

Record Sprites := mkSprites {
  front_default : option string;
  back_default : option string;
  official_artwork : option (option string);
}.

Record TypeSlot := mkTypeSlot { type_slot : Z; type_ : NamedResource }.
Record StatEntry := mkStat { base_stat : Z; effort : Z; stat : NamedResource }.
Record AbilityEntry := mkAbility {
  ability : NamedResource; is_hidden : bool; ability_slot : Z }.

Record PokemonDetail := mkDetail {
  detail_id : Z;
  detail_name : string;
  height : Z;
  weight : Z;
  base_experience : Z;
  sprites : Sprites;
  detail_types : list TypeSlot;
  stats : list StatEntry;
  abilities : list AbilityEntry;
}.

Record PaginationConfig := mkPagination { limit : Z; offset : Z }.

(** ** The store ([store/pokemonStore.ts]) *)

Record PokemonStore := mkStore {
  pokemonList : list Pokemon;
  filteredList : list Pokemon;
  searchQuery : string;
  isLoading : bool;
  isRefreshing : bool;
  error : option string;
  hasMore : bool;
  pagination : PaginationConfig;
  selectedPokemon : option PokemonDetail;
  detailLoading : bool;
  detailError : option string;
}.

Definition INITIAL_PAGINATION : PaginationConfig :=
  {| limit := 20; offset := 0 |}.

(** The state [create] is called with. *)
Definition initialStore : PokemonStore := {|
  pokemonList := [];
  filteredList := [];
  searchQuery := "";
  isLoading := false;
  isRefreshing := false;
  error := None;
  hasMore := true;
  pagination := INITIAL_PAGINATION;
  selectedPokemon := None;
  detailLoading := false;
  detailError := None;
|}.

Module Store.

(** [newList.filter((p) => p.name.toLowerCase().includes(query))] *)
Definition filterByQuery (query : string) (l : list Pokemon) : list Pokemon :=
  List.filter (fun p => Js.includes (Js.toLowerCase (name p)) query) l.

Definition setPokemonList (pokemon : list Pokemon) (append : bool)
    (state : PokemonStore) : PokemonStore :=
  let newList := if append then (pokemonList state ++ pokemon)%list
                 else pokemon in
  let query := Js.toLowerCase (searchQuery state) in
  let filtered := if Js.truthy query then filterByQuery query newList
                  else newList in
  {| pokemonList := newList;
     filteredList := filtered;
     searchQuery := searchQuery state;
     isLoading := isLoading state;
     isRefreshing := isRefreshing state;
     error := error state;
     hasMore := hasMore state;
     pagination := pagination state;
     selectedPokemon := selectedPokemon state;
     detailLoading := detailLoading state;
     detailError := detailError state |}.

Definition setLoading (b : bool) (state : PokemonStore) : PokemonStore :=
  {| pokemonList := pokemonList state;
     filteredList := filteredList state;
     searchQuery := searchQuery state;
     isLoading := b;
     isRefreshing := isRefreshing state;
     error := error state;
     hasMore := hasMore state;
     pagination := pagination state;
     selectedPokemon := selectedPokemon state;
     detailLoading := detailLoading state;
     detailError := detailError state |}.

Definition setRefreshing (b : bool) (state : PokemonStore) : PokemonStore :=
  {| pokemonList := pokemonList state;
     filteredList := filteredList state;
     searchQuery := searchQuery state;
     isLoading := isLoading state;
     isRefreshing := b;
     error := error state;
     hasMore := hasMore state;
     pagination := pagination state;
     selectedPokemon := selectedPokemon state;
     detailLoading := detailLoading state;
     detailError := detailError state |}.

Definition setError (e : option string) (state : PokemonStore) : PokemonStore :=
  {| pokemonList := pokemonList state;
     filteredList := filteredList state;
     searchQuery := searchQuery state;
     isLoading := isLoading state;
     isRefreshing := isRefreshing state;
     error := e;
     hasMore := hasMore state;
     pagination := pagination state;
     selectedPokemon := selectedPokemon state;
     detailLoading := detailLoading state;
     detailError := detailError state |}.

Definition setHasMore (b : bool) (state : PokemonStore) : PokemonStore :=
  {| pokemonList := pokemonList state;
     filteredList := filteredList state;
     searchQuery := searchQuery state;
     isLoading := isLoading state;
     isRefreshing := isRefreshing state;
     error := error state;
     hasMore := b;
     pagination := pagination state;
     selectedPokemon := selectedPokemon state;
     detailLoading := detailLoading state;
     detailError := detailError state |}.

Definition setPagination (p : PaginationConfig) (state : PokemonStore)
    : PokemonStore :=
  {| pokemonList := pokemonList state;
     filteredList := filteredList state;
     searchQuery := searchQuery state;
     isLoading := isLoading state;
     isRefreshing := isRefreshing state;
     error := error state;
     hasMore := hasMore state;
     pagination := p;
     selectedPokemon := selectedPokemon state;
     detailLoading := detailLoading state;
     detailError := detailError state |}.

Definition setSearchQuery (q : string) (state : PokemonStore) : PokemonStore :=
  let query := Js.toLowerCase q in
  let filtered := if Js.truthy query
                  then filterByQuery query (pokemonList state)
                  else pokemonList state in
  {| pokemonList := pokemonList state;
     filteredList := filtered;
     searchQuery := q;
     isLoading := isLoading state;
     isRefreshing := isRefreshing state;
     error := error state;
     hasMore := hasMore state;
     pagination := pagination state;
     selectedPokemon := selectedPokemon state;
     detailLoading := detailLoading state;
     detailError := detailError state |}.

Definition resetList (state : PokemonStore) : PokemonStore :=
  {| pokemonList := [];
     filteredList := [];
     searchQuery := "";
     isLoading := false;
     isRefreshing := false;
     error := None;
     hasMore := true;
     pagination := INITIAL_PAGINATION;
     selectedPokemon := selectedPokemon state;
     detailLoading := detailLoading state;
     detailError := detailError state |}.

Definition setSelectedPokemon (d : option PokemonDetail)
    (state : PokemonStore) : PokemonStore :=
  {| pokemonList := pokemonList state;
     filteredList := filteredList state;
     searchQuery := searchQuery state;
     isLoading := isLoading state;
     isRefreshing := isRefreshing state;
     error := error state;
     hasMore := hasMore state;
     pagination := pagination state;
     selectedPokemon := d;
     detailLoading := detailLoading state;
     detailError := detailError state |}.

Definition setDetailLoading (b : bool) (state : PokemonStore) : PokemonStore :=
  {| pokemonList := pokemonList state;
     filteredList := filteredList state;
     searchQuery := searchQuery state;
     isLoading := isLoading state;
     isRefreshing := isRefreshing state;
     error := error state;
     hasMore := hasMore state;
     pagination := pagination state;
     selectedPokemon := selectedPokemon state;
     detailLoading := b;
     detailError := detailError state |}.

Definition setDetailError (e : option string) (state : PokemonStore)
    : PokemonStore :=
  {| pokemonList := pokemonList state;
     filteredList := filteredList state;
     searchQuery := searchQuery state;
     isLoading := isLoading state;
     isRefreshing := isRefreshing state;
     error := error state;
     hasMore := hasMore state;
     pagination := pagination state;
     selectedPokemon := selectedPokemon state;
     detailLoading := detailLoading state;
     detailError := e |}.

Definition resetDetail (state : PokemonStore) : PokemonStore :=
  {| pokemonList := pokemonList state;
     filteredList := filteredList state;
     searchQuery := searchQuery state;
     isLoading := isLoading state;
     isRefreshing := isRefreshing state;
     error := error state;
     hasMore := hasMore state;
     pagination := pagination state;
     selectedPokemon := None;
     detailLoading := false;
     detailError := None |}.

(** The twelve actions of the store, as data, and the states they reach. *)
Inductive Action :=
| SetPokemonList (pokemon : list Pokemon) (append : bool)
| SetLoading (b : bool)
| SetRefreshing (b : bool)
| SetError (e : option string)
| SetHasMore (b : bool)
| SetPagination (p : PaginationConfig)
| SetSearchQuery (q : string)
| ResetList
| SetSelectedPokemon (d : option PokemonDetail)
| SetDetailLoading (b : bool)
| SetDetailError (e : option string)
| ResetDetail.

Definition dispatch (a : Action) : PokemonStore -> PokemonStore :=
  match a with
  | SetPokemonList pokemon append => setPokemonList pokemon append
  | SetLoading b => setLoading b
  | SetRefreshing b => setRefreshing b
  | SetError e => setError e
  | SetHasMore b => setHasMore b
  | SetPagination p => setPagination p
  | SetSearchQuery q => setSearchQuery q
  | ResetList => resetList
  | SetSelectedPokemon d => setSelectedPokemon d
  | SetDetailLoading b => setDetailLoading b
  | SetDetailError e => setDetailError e
  | ResetDetail => resetDetail
  end.

Inductive reachable : PokemonStore -> Prop :=
| reachable_init : reachable initialStore
| reachable_dispatch a s : reachable s -> reachable (dispatch a s).

(** The filtered view the way the specification words it: the entries whose
    lowercased name contains the lowercased term, all of them for the empty
    term. *)
Definition spec_filtered (search : string) (accumulated : list Pokemon)
    : list Pokemon :=
  List.filter
    (fun e => match search with
              | EmptyString => true
              | _ => Js.includes (Js.toLowerCase (name e)) (Js.toLowerCase search)
              end)
    accumulated.

Definition view_consistent (s : PokemonStore) : Prop :=
  filteredList s = spec_filtered (searchQuery s) (pokemonList s).

End Store.

(** ** The gateway as the controllers see it ([api/pokemonApi.ts]) *)

(** What a rejected promise carries: an Axios error with its [code] and the
    status of its [response] (when there is one), another [Error], or any
    other thrown value. *)
Inductive Thrown :=
| AxiosError (code : option string) (response : option Z)
| PlainError (message : string)
| OtherValue.

Definition code_is (code : option string) (expected : string) : bool :=
  match code with
  | Some c => String.eqb c expected
  | None => false
  end.

Definition getErrorMessage (error : Thrown) : string :=
  match error with
  | AxiosError code response =>
      if code_is code "ECONNABORTED"
      then "Request timed out. Please check your connection and try again."
      else
        match response with
        | None => "Network error. Please check your internet connection."
        | Some status =>
            if status =? 404 then "Pokemon not found."
            else if status =? 429
            then "Too many requests. Please wait a moment and try again."
            else if (status =? 500) || (status =? 502) || (status =? 503)
            then "Server error. Please try again later."
            else "An unexpected error occurred. Please try again."
        end
  | PlainError message => message
  | OtherValue => "An unknown error occurred. Please try again."
  end.

(** What [fetchPokemonList] resolves with. *)
Record ListPage := mkPage { page_pokemon : list Pokemon; page_hasMore : bool }.

Inductive IdOrName :=
| IdNumber (n : Z)
| IdString (s : string).

(** A call handed to the gateway. *)
Inductive Request :=
| FetchPokemonList (p : PaginationConfig)
| FetchPokemonDetail (idOrName : IdOrName).

Inductive Outcome (A : Type) :=
| Resolved (value : A)
| Rejected (err : Thrown).
Arguments Resolved {A} value.
Arguments Rejected {A} err.

(** ** Everything a hook invocation can read or write *)

Record World := mkWorld {
  store : PokemonStore;
  isFetchingRef : bool;       (* useRef of useFetchItems *)
  isLoadingMoreRef : bool;    (* useRef of useFetchItems *)
  network : list Request;     (* gateway calls so far, oldest first *)
}.

Definition initialWorld : World :=
  {| store := initialStore;
     isFetchingRef := false;
     isLoadingMoreRef := false;
     network := [] |}.

(** Calling a store action. *)
Definition act (f : PokemonStore -> PokemonStore) (w : World) : World :=
  {| store := f (store w);
     isFetchingRef := isFetchingRef w;
     isLoadingMoreRef := isLoadingMoreRef w;
     network := network w |}.

Definition set_isFetchingRef (b : bool) (w : World) : World :=
  {| store := store w;
     isFetchingRef := b;
     isLoadingMoreRef := isLoadingMoreRef w;
     network := network w |}.

Definition set_isLoadingMoreRef (b : bool) (w : World) : World :=
  {| store := store w;
     isFetchingRef := isFetchingRef w;
     isLoadingMoreRef := b;
     network := network w |}.

Definition send (req : Request) (w : World) : World :=
  {| store := store w;
     isFetchingRef := isFetchingRef w;
     isLoadingMoreRef := isLoadingMoreRef w;
     network := (network w ++ [req])%list |}.

(** Statement sequencing. *)
Definition seq_ (f g : World -> World) : World -> World := fun w => g (f w).
Notation "f >>> g" := (seq_ f g) (at level 61, left associativity).

(** [console.error] leaves no trace in the modelled state. *)
Definition console_error : World -> World := fun w => w.

(** An [async] function with a single [await], run until it returns or
    suspends.  [Awaiting w req k]: the synchronous prefix left the world [w]
    (the request [req] already in its log); [k] is the rest of the body, run on
    the world found when the promise settles. *)
Inductive Async (A : Type) :=
| Returned (w : World)
| Awaiting (w : World) (req : Request) (k : Outcome A -> World -> World).
Arguments Returned {A} w.
Arguments Awaiting {A} w req k.

Definition await {A} (req : Request) (w : World)
    (k : Outcome A -> World -> World) : Async A :=
  Awaiting (send req w) req k.

(** The world when control comes back to the caller. *)
Definition world_of {A} (a : Async A) : World :=
  match a with
  | Returned w => w
  | Awaiting w _ _ => w
  end.

Definition request_of {A} (a : Async A) : option Request :=
  match a with
  | Returned _ => None
  | Awaiting _ req _ => Some req
  end.

(** The promise settles with [o] while the world is [w]. *)
Definition settle {A} (a : Async A) (o : Outcome A) (w : World) : World :=
  match a with
  | Returned _ => w
  | Awaiting _ _ k => k o w
  end.

(** The call and its settlement with nothing in between. *)
Definition complete {A} (a : Async A) (o : Outcome A) : World :=
  settle a o (world_of a).

(** ** What a render captures for the callbacks it creates *)

Record Rendered := mkRendered {
  r_isLoading : bool;
  r_isRefreshing : bool;
  r_hasMore : bool;
  r_pagination : PaginationConfig;
  r_searchQuery : string;
}.

Definition render (s : PokemonStore) : Rendered :=
  {| r_isLoading := isLoading s;
     r_isRefreshing := isRefreshing s;
     r_hasMore := hasMore s;
     r_pagination := pagination s;
     r_searchQuery := searchQuery s |}.

(** ** [hooks/useFetchItems.ts] *)

(** [fetchPokemonList] resolves with an array in every branch, so
    [safePokemonList] is the page's [pokemon] itself. *)
Definition loadInitialData (w : World) : Async ListPage :=
  if isFetchingRef w then Returned w
  else
    let w := (set_isFetchingRef true >>>
              act (Store.setLoading true) >>>
              act (Store.setError None)) w in
    let initialPagination := {| limit := 20; offset := 0 |} in
    await (FetchPokemonList initialPagination) w
      (fun outcome =>
         match outcome with
         | Resolved page =>
             act (Store.setPokemonList (page_pokemon page) false) >>>
             act (Store.setHasMore (page_hasMore page)) >>>
             act (Store.setPagination {| limit := 20; offset := 20 |})
         | Rejected err =>
             act (Store.setError (Some (getErrorMessage err)))
         end >>>
         act (Store.setLoading false) >>>
         set_isFetchingRef false).

Definition loadMoreData (c : Rendered) (w : World) : Async ListPage :=
  if isLoadingMoreRef w || negb (r_hasMore c) || r_isLoading c
     || r_isRefreshing c
  then Returned w
  else
    let w := set_isLoadingMoreRef true w in
    let pagination := r_pagination c in
    await (FetchPokemonList pagination) w
      (fun outcome =>
         match outcome with
         | Resolved page =>
             act (Store.setPokemonList (page_pokemon page) true) >>>
             act (Store.setHasMore (page_hasMore page)) >>>
             act (Store.setPagination
                    {| limit := limit pagination;
                       offset := offset pagination + limit pagination |})
         | Rejected err => console_error
         end >>>
         set_isLoadingMoreRef false).

Definition refreshData (c : Rendered) (w : World) : Async ListPage :=
  if isFetchingRef w || r_isLoading c then Returned w
  else
    let w := (set_isFetchingRef true >>>
              act (Store.setRefreshing true) >>>
              act (Store.setError None)) w in
    let initialPagination := {| limit := 20; offset := 0 |} in
    await (FetchPokemonList initialPagination) w
      (fun outcome =>
         match outcome with
         | Resolved page =>
             act Store.resetList >>>
             act (Store.setPokemonList (page_pokemon page) false) >>>
             act (Store.setHasMore (page_hasMore page)) >>>
             act (Store.setPagination {| limit := 20; offset := 20 |})
         | Rejected err =>
             act (Store.setError (Some (getErrorMessage err)))
         end >>>
         act (Store.setRefreshing false) >>>
         set_isFetchingRef false).

Definition retryFetch (w : World) : Async ListPage := loadInitialData w.

(** ** [screens/PokemonListScreen.tsx]: the scroll-end handler *)

Definition handleEndReached (c : Rendered) (w : World) : Async ListPage :=
  if negb (r_isLoading c) && negb (r_isRefreshing c) && r_hasMore c
     && negb (Js.truthy (r_searchQuery c))
  then loadMoreData c w
  else Returned w.

(** ** [hooks/usePokemonDetail.ts] *)

Definition fetchDetail (idOrName : IdOrName) (w : World) : Async PokemonDetail :=
  let w := (act (Store.setDetailLoading true) >>>
            act (Store.setDetailError None)) w in
  await (FetchPokemonDetail idOrName) w
    (fun outcome =>
       match outcome with
       | Resolved pokemonData =>
           act (Store.setSelectedPokemon (Some pokemonData))
       | Rejected err =>
           act (Store.setDetailError (Some (getErrorMessage err)))
       end >>>
       act (Store.setDetailLoading false)).

Definition retry (pokemonId : IdOrName) (w : World) : Async PokemonDetail :=
  fetchDetail pokemonId w.

(** [cleanup], also the effect's teardown: the specification's [reset()]. *)
Definition cleanup : World -> World := act Store.resetDetail.

(** [if (pokemonId)]: zero and the empty string are falsy. *)
Definition truthy_id (pokemonId : IdOrName) : bool :=
  match pokemonId with
  | IdNumber n => negb (n =? 0)
  | IdString s => Js.truthy s
  end.

(** The body of the hook's effect, run when the detail view is entered with
    [pokemonId]; [cleanup] runs when the view is left. *)
Definition detailEffect (pokemonId : IdOrName) (w : World)
    : Async PokemonDetail :=
  if truthy_id pokemonId then fetchDetail pokemonId w else Returned w.

(** ** Scenarios built from the operations *)

(** One successful [loadMoreData] per page, each issued from a fresh render
    and settled before the next is issued. *)
Fixpoint loadMorePages (pages : list ListPage) (w : World) : World :=
  match pages with
  | [] => w
  | page :: rest =>
      loadMorePages rest
        (complete (loadMoreData (render (store w)) w) (Resolved page))
  end.

(** Every page but the last announces a next page. *)
Fixpoint more_until_last (pages : list ListPage) : bool :=
  match pages with
  | [] => true
  | page :: rest =>
      match rest with
      | [] => true
      | _ :: _ => page_hasMore page && more_until_last rest
      end
  end.

(** The cursors of [n] consecutive pages starting at [start], [limit] 20. *)
Fixpoint cursors (n : nat) (start : Z) : list Request :=
  match n with
  | O => []
  | S n' =>
      FetchPokemonList {| limit := 20; offset := start |}
        :: cursors n' (start + 20)
  end.

Definition total_length (pages : list ListPage) : nat :=
  fold_right (fun page n => (length (page_pokemon page) + n)%nat) O pages.

(** ** Concrete data for the worked scenarios *)

Definition sample_entry (n : Z) (nm : string) : Pokemon :=
  {| id := n; name := nm; url := ""; imageUrl := ""; types := [] |}.

Definition sample_page_1 : ListPage :=
  {| page_pokemon := [sample_entry 1 "bulbasaur"; sample_entry 25 "Pikachu"];
     page_hasMore := true |}.

Definition sample_page_2 : ListPage :=
  {| page_pokemon := [sample_entry 26 "raichu"; sample_entry 172 "pichu"];
     page_hasMore := false |}.

Definition sample_detail : PokemonDetail :=
  {| detail_id := 25;
     detail_name := "pikachu";
     height := 4;
     weight := 60;
     base_experience := 112;
     sprites := {| front_default := None;
                   back_default := None;
                   official_artwork := None |};
     detail_types := [{| type_slot := 1;
                         type_ := {| res_name := "electric"; res_url := "" |} |}];
     stats := [{| base_stat := 35; effort := 0;
                  stat := {| res_name := "hp"; res_url := "" |} |}];
     abilities := [] |}.

(** A missing id: an Axios error whose response has status 404. *)
Definition not_found_error : Thrown :=
  AxiosError (Some "ERR_BAD_REQUEST") (Some 404).

Definition offline_error : Thrown := AxiosError (Some "ERR_NETWORK") None.

Definition searching_store : PokemonStore :=
  Store.dispatch (Store.SetPokemonList (page_pokemon sample_page_2) true)
    (Store.dispatch (Store.SetSearchQuery "CHU")
       (Store.dispatch (Store.SetPokemonList (page_pokemon sample_page_1) false)
          initialStore)).

(** The list screen after its first page arrived. *)
Definition loaded_world : World :=
  complete (loadInitialData initialWorld) (Resolved sample_page_1).

(** ... and after the user typed a search term. *)
Definition searching_world : World :=
  act (Store.setSearchQuery "pika") loaded_world.

(** ... or, instead, scrolled to the end: an incremental load is in flight. *)
Definition loading_more_world : World :=
  world_of (loadMoreData (render (store loaded_world)) loaded_world).

(** Detail view of 25 entered; left before the response; detail view of 9999
    entered; the first response arrives; the second request is rejected. *)
Definition stale_detail_world : World :=
  let first := detailEffect (IdNumber 25) initialWorld in
  let left := cleanup (world_of first) in
  let second := detailEffect (IdNumber 9999) left in
  let arrived := settle first (Resolved sample_detail) (world_of second) in
  settle second (Rejected not_found_error) arrived.

(** ** The two halves of the store *)

(** What the list screen reads and its controller writes. *)
Definition list_slice (s : PokemonStore) :=
  (pokemonList s, filteredList s, searchQuery s, isLoading s, isRefreshing s,
   error s, hasMore s, pagination s).

(** What the detail screen reads and its controller writes. *)
Definition detail_slice (s : PokemonStore) :=
  (selectedPokemon s, detailLoading s, detailError s).

(** ** Numbers as text *)

Module JsText.

Definition is_digit (c : ascii) : bool :=
  let n := nat_of_ascii c in
  ((48 <=? n)%nat && (n <=? 57)%nat)%bool.

Definition digit_value (c : ascii) : Z := Z.of_nat (nat_of_ascii c) - 48.

Definition digit_char (d : Z) : ascii := ascii_of_nat (Z.to_nat (48 + d)).

(** The value of a run of decimal digits, most significant first, on top of
    the value [acc] of the digits already read. *)
Fixpoint parse_digits (acc : Z) (digits : string) : Z :=
  match digits with
  | EmptyString => acc
  | String c rest => parse_digits (10 * acc + digit_value c) rest
  end.

(** [parseInt(digits, 10)] where [digits] is a non-empty run of decimal
    digits, which is all the gateway applies it to. *)
Definition parseInt (digits : string) : Z := parse_digits 0 digits.

(** The decimal digits of [n >= 0] in front of [acc]; [fuel] bounds the
    number of digits after the first. *)
Fixpoint decimal_go (fuel : nat) (n : Z) (acc : string) : string :=
  let acc' := String (digit_char (n mod 10)) acc in
  match fuel with
  | O => acc'
  | S fuel' => if n / 10 =? 0 then acc' else decimal_go fuel' (n / 10) acc'
  end.

Definition decimal (n : Z) : string :=
  decimal_go (Z.to_nat (Z.log2 n)) n EmptyString.

(** [String(n)], also what a template literal does to [n], for an integer of
    magnitude below 10^21; from there on JS prints exponent notation, which
    this does not model. *)
Definition toString (n : Z) : string :=
  if n <? 0 then String "-" (decimal (- n)) else decimal n.

Fixpoint repeat_char (c : ascii) (n : nat) : string :=
  match n with
  | O => EmptyString
  | S n' => String c (repeat_char c n')
  end.

(** [s.padStart(targetLength, c)] for a one-character pad string. *)
Definition padStart (targetLength : nat) (c : ascii) (s : string) : string :=
  repeat_char c (targetLength - String.length s) ++ s.

(** The longest prefix of decimal digits, and what follows it. *)
Fixpoint span_digits (s : string) : string * string :=
  match s with
  | EmptyString => (EmptyString, EmptyString)
  | String c rest =>
      if is_digit c
      then let (digits, tail) := span_digits rest in (String c digits, tail)
      else (EmptyString, s)
  end.

Fixpoint all_digits (s : string) : bool :=
  match s with
  | EmptyString => true
  | String c rest => (is_digit c && all_digits rest)%bool
  end.

Fixpoint skip (n : nat) (s : string) : string :=
  match n, s with
  | O, _ => s
  | S n', String _ rest => skip n' rest
  | S _, EmptyString => EmptyString
  end.

End JsText.

(** ** The gateway's response handling ([api/pokemonApi.ts]) *)

(** Raw shapes of the API ([types/index.ts]).  [results] is [None] when the
    field is not an array; [next] and [previous] are [None] for [null]. *)
Record PokemonListItem := mkItem { item_name : string; item_url : string }.

Record PokemonListResponse := mkListResponse {
  count : Z;
  next : option string;
  previous : option string;
  results : option (list PokemonListItem);
}.

(** The regular expression [/\/pokemon\/(\d+)\//] tried at the start of [s]:
    the literal, then the longest run of digits, which must be non-empty and
    followed by a slash.  The result is capture group 1. *)
Definition match_here (s : string) : option string :=
  if String.prefix "/pokemon/" s
  then let (digits, tail) := JsText.span_digits (JsText.skip 9 s) in
       if (Js.truthy digits && String.prefix "/" tail)%bool
       then Some digits
       else None
  else None.

(** [url.match(...)]: the leftmost position where the expression matches. *)
Fixpoint url_match (url : string) : option string :=
  match match_here url with
  | Some digits => Some digits
  | None =>
      match url with
      | EmptyString => None
      | String _ rest => url_match rest
      end
  end.

Definition extractPokemonId (url : string) : Z :=
  match url_match url with
  | Some digits => JsText.parseInt digits
  | None => 0
  end.

Definition artwork_base : string :=
  "https://raw.githubusercontent.com/PokeAPI/sprites/master/sprites/pokemon/other/official-artwork/".

Definition getPokemonImageUrl (id : Z) : string :=
  artwork_base ++ JsText.toString id ++ ".png".

Definition transformPokemonListItem (item : PokemonListItem) : Pokemon :=
  let id := extractPokemonId (item_url item) in
  {| id := id;
     name := item_name item;
     url := item_url item;
     imageUrl := getPokemonImageUrl id;
     types := [] |}.

(** [fetchPokemonList] after its [await]: what it makes of the body [data]
    of the response ([None]: no response or no body). *)
Definition fetchPokemonList_page (data : option PokemonListResponse)
    : ListPage :=
  match data with
  | None => {| page_pokemon := []; page_hasMore := false |}
  | Some d =>
      match results d with
      | None => {| page_pokemon := []; page_hasMore := false |}
      | Some rs =>
          {| page_pokemon := List.map transformPokemonListItem rs;
             page_hasMore := match next d with
                             | Some _ => true
                             | None => false
                             end |}
      end
  end.

(** The promise of [fetchPokemonList] given how the HTTP call settled. *)
Definition fetchPokemonList (http : Outcome (option PokemonListResponse))
    : Outcome ListPage :=
  match http with
  | Resolved data => Resolved (fetchPokemonList_page data)
  | Rejected err => Rejected err
  end.

Definition fetchPokemonDetail (http : Outcome (option PokemonDetail))
    : Outcome PokemonDetail :=
  match http with
  | Resolved (Some data) => Resolved data
  | Resolved None => Rejected (PlainError "Invalid response from Pokemon API")
  | Rejected err => Rejected err
  end.

(** ** What the screens show *)

(** [components/StateHandler.tsx]: which of its four renderings is returned. *)
Inductive Screen :=
| LoadingScreen
| ErrorScreen (message : string) (retryButton : bool)
| EmptyScreen (message subMessage : string)
| Children.

(** [!!error] for [error: string | null]. *)
Definition error_shown (error : option string) : bool :=
  match error with
  | Some message => Js.truthy message
  | None => false
  end.

Definition StateHandler (isLoading : bool) (error : option string)
    (isEmpty : bool) (onRetry : bool) (emptyMessage emptySubMessage : string)
    : Screen :=
  if isLoading then LoadingScreen
  else if error_shown error
  then ErrorScreen (match error with
                    | Some message => message
                    | None => EmptyString
                    end) onRetry
  else if isEmpty then EmptyScreen emptyMessage emptySubMessage
  else Children.

(** [components/LoadingFooter.tsx] *)
Inductive Footer :=
| FooterSpinner
| FooterEndOfList
| FooterSpacer.

Definition LoadingFooter (isLoading hasMore : bool) (itemCount : nat)
    : Footer :=
  if isLoading then FooterSpinner
  else if (negb hasMore && (0 <? itemCount)%nat)%bool then FooterEndOfList
  else FooterSpacer.

Definition double_quote : string := String (ascii_of_nat 34) EmptyString.

Definition emptySubMessage (searchQuery : string) : string :=
  if Js.truthy searchQuery
  then "No results for " ++ double_quote ++ searchQuery ++ double_quote
       ++ ". Try a different search."
  else "Pull down to refresh and load Pokémon.".

(** [screens/PokemonListScreen.tsx]: the props it hands to [StateHandler] and
    to [LoadingFooter] when it renders the state [s]. *)
Definition listScreen (s : PokemonStore) : Screen :=
  let empty := (length (filteredList s) =? 0)%nat in
  StateHandler
    (isLoading s && empty)
    (error s)
    (negb (isLoading s) && empty)
    true
    "No Pokémon found"
    (emptySubMessage (searchQuery s)).

Definition renderFooter (s : PokemonStore) : Footer :=
  LoadingFooter
    (negb (isLoading s) && negb (isRefreshing s) && hasMore s
     && negb (Js.truthy (searchQuery s)))
    (hasMore s)
    (length (filteredList s)).

Definition keyExtractor (item : Pokemon) : string :=
  "pokemon-" ++ JsText.toString (id item).

(** [components/PokemonCard.tsx]: the id badge. *)
Definition formattedId (pokemon : Pokemon) : string :=
  "#" ++ JsText.padStart 3 "0" (JsText.toString (id pokemon)).

(** [screens/PokemonDetailScreen.tsx]: the props it hands to [StateHandler]. *)
Definition detailScreen (s : PokemonStore) : Screen :=
  StateHandler (detailLoading s) (detailError s) false true
    "No items found" "Try adjusting your search or pull to refresh".

(** Pressing a card navigates with the entry's [id]; the detail screen passes
    it to [usePokemonDetail], whose effect runs on mount. *)
Definition openDetail (pokemon : Pokemon) (w : World) : Async PokemonDetail :=
  detailEffect (IdNumber (id pokemon)) w.

(** ** The search box in the list header ([components/SearchBar.tsx],
    [screens/PokemonListScreen.tsx]) *)

(** The state of one mounted search box. *)
Record SearchBar := mkSearchBar {
  localValue : string;                (* useState(value) *)
  debounceTimerRef : option nat;      (* useRef(null): the last timeout id *)
}.

(** The list screen and what surrounds it.  The search box is rendered by
    [renderHeader] as the header of the [FlatList], and the [FlatList] is the
    child of [StateHandler]: a box is mounted only while the list is on
    screen. *)
Record Ui := mkUi {
  box : option SearchBar;             (* the mounted box, if there is one *)
  timeouts : list (nat * string);     (* scheduled, neither fired nor cleared *)
  nextTimeoutId : nat;                (* what setTimeout returns next *)
  emitted : list string;              (* calls of onChangeText, oldest first *)
  world : World;
}.

(** At start the store is empty and not loading: the screen is the empty
    state, and no box is mounted. *)
Definition initialUi : Ui :=
  {| box := None;
     timeouts := [];
     nextTimeoutId := 1;
     emitted := [];
     world := initialWorld |}.

Definition clearTimeout (id : nat) (ts : list (nat * string))
    : list (nat * string) :=
  List.filter (fun t => negb (fst t =? id)%nat) ts.

Fixpoint scheduled (id : nat) (ts : list (nat * string)) : option string :=
  match ts with
  | [] => None
  | (id', text) :: rest =>
      if (id' =? id)%nat then Some text else scheduled id rest
  end.

(** [StateHandler] renders its children, the [FlatList] with its header. *)
Definition shows_list (s : PokemonStore) : bool :=
  match listScreen s with
  | Children => true
  | _ => false
  end.

(** Mounting: [useState(value)], [useRef(null)]. *)
Definition mountSearchBar (value : string) : SearchBar :=
  {| localValue := value; debounceTimerRef := None |}.

(** The cleanup of the box's last effect, run when it is unmounted:
    [if (debounceTimerRef.current) clearTimeout(debounceTimerRef.current)]. *)
Definition unmountCleanup (b : option SearchBar) (ts : list (nat * string))
    : list (nat * string) :=
  match b with
  | Some b =>
      match debounceTimerRef b with
      | Some id => clearTimeout id ts
      | None => ts
      end
  | None => ts
  end.

(** The list screen renders again after the store changed from [before].
    [renderHeader] is a [useCallback] on [searchQuery]: while the term is the
    same it is the same function and the mounted box stays; when the term
    has changed it is a new function, so the header is unmounted and mounted
    anew, with [value] the new term.  When the list is not on screen, no box
    is mounted. *)
Definition rerender (before : PokemonStore) (u : Ui) : Ui :=
  let s := store (world u) in
  if shows_list s
  then
    match box u with
    | Some _ =>
        if String.eqb (searchQuery before) (searchQuery s) then u
        else {| box := Some (mountSearchBar (searchQuery s));
                timeouts := unmountCleanup (box u) (timeouts u);
                nextTimeoutId := nextTimeoutId u;
                emitted := emitted u;
                world := world u |}
    | None =>
        {| box := Some (mountSearchBar (searchQuery s));
           timeouts := timeouts u;
           nextTimeoutId := nextTimeoutId u;
           emitted := emitted u;
           world := world u |}
    end
  else {| box := None;
          timeouts := unmountCleanup (box u) (timeouts u);
          nextTimeoutId := nextTimeoutId u;
          emitted := emitted u;
          world := world u |}.

(** [onChangeText(text)], which the list screen binds to [setSearchQuery],
    and the render that follows. *)
Definition onChangeText (text : string) (u : Ui) : Ui :=
  rerender (store (world u))
    {| box := box u;
       timeouts := timeouts u;
       nextTimeoutId := nextTimeoutId u;
       emitted := (emitted u ++ [text])%list;
       world := act (Store.setSearchQuery text) (world u) |}.

(** The handlers of the mounted box; without a box there is nothing to
    invoke them. *)
Definition handleChangeText (text : string) (u : Ui) : Ui :=
  match box u with
  | None => u
  | Some b =>
      let kept := match debounceTimerRef b with
                  | Some id => clearTimeout id (timeouts u)
                  | None => timeouts u
                  end in
      {| box := Some {| localValue := text;
                        debounceTimerRef := Some (nextTimeoutId u) |};
         timeouts := (kept ++ [(nextTimeoutId u, text)])%list;
         nextTimeoutId := S (nextTimeoutId u);
         emitted := emitted u;
         world := world u |}
  end.

Definition handleClear (u : Ui) : Ui :=
  match box u with
  | None => u
  | Some b =>
      onChangeText EmptyString
        {| box := Some {| localValue := EmptyString;
                          debounceTimerRef := debounceTimerRef b |};
           timeouts := timeouts u;
           nextTimeoutId := nextTimeoutId u;
           emitted := emitted u;
           world := world u |}
  end.

(** The timeout [id] comes due and runs [onChangeText(text)]. *)
Definition fireTimeout (id : nat) (u : Ui) : Ui :=
  match scheduled id (timeouts u) with
  | None => u
  | Some text =>
      onChangeText text
        {| box := box u;
           timeouts := clearTimeout id (timeouts u);
           nextTimeoutId := nextTimeoutId u;
           emitted := emitted u;
           world := world u |}
  end.

(** Store actions performed by the controllers between two renders, and the
    render that follows them. *)
Definition storeChanged (actions : list Store.Action) (u : Ui) : Ui :=
  rerender (store (world u))
    {| box := box u;
       timeouts := timeouts u;
       nextTimeoutId := nextTimeoutId u;
       emitted := emitted u;
       world := act (fun s => fold_left (fun s a => Store.dispatch a s)
                                actions s) (world u) |}.

Inductive UiEvent :=
| Typed (text : string)
| TimeoutDue (id : nat)
| ClearPressed
| StoreChanged (actions : list Store.Action).

Definition ui_step (e : UiEvent) : Ui -> Ui :=
  match e with
  | Typed text => handleChangeText text
  | TimeoutDue id => fireTimeout id
  | ClearPressed => handleClear
  | StoreChanged actions => storeChanged actions
  end.

Inductive ui_reachable : Ui -> Prop :=
| ui_reachable_init : ui_reachable initialUi
| ui_reachable_step e u : ui_reachable u -> ui_reachable (ui_step e u).

(** No timeout without a box; with a box, at most one, the one its ref
    names. *)
Definition timers_ok (u : Ui) : Prop :=
  match box u with
  | None => timeouts u = []
  | Some b =>
      timeouts u = []
      \/ exists id text, timeouts u = [(id, text)]
                         /\ debounceTimerRef b = Some id
  end.

Definition ui_ok (u : Ui) : Prop :=
  Store.reachable (store (world u))
  /\ timers_ok u
  /\ (box u <> None -> shows_list (store (world u)) = true).

(** A burst of keystrokes. *)
Definition typeAll (texts : list string) (u : Ui) : Ui :=
  fold_left (fun u text => handleChangeText text u) texts u.

(** What the mounted box displays, if there is one. *)
Definition shownText (u : Ui) : option string :=
  match box u with
  | Some b => Some (localValue b)
  | None => None
  end.

(** The first two pages have arrived: the list, and with it the box, is on
    screen. *)
Definition listed_ui : Ui :=
  storeChanged
    [Store.SetPokemonList
       (page_pokemon sample_page_1 ++ page_pokemon sample_page_2)%list false]
    initialUi.

(** ... and the term "chu" has been typed and committed. *)
Definition committed_ui : Ui :=
  fireTimeout 1 (handleChangeText "chu" listed_ui).

(** ** More concrete data *)

Definition pikachu_item : PokemonListItem :=
  {| item_name := "pikachu";
     item_url := "https://pokeapi.co/api/v2/pokemon/25/" |}.

Definition nameless_item : PokemonListItem :=
  {| item_name := "missingno"; item_url := "https://example.org/unknown" |}.

Definition sample_response : PokemonListResponse :=
  {| count := 1302;
     next := Some "https://pokeapi.co/api/v2/pokemon?offset=20&limit=20";
     previous := None;
     results := Some [pikachu_item; nameless_item] |}.

Definition server_error : Thrown := AxiosError (Some "ERR_BAD_RESPONSE") (Some 503).

(** ** Proof automation *)

(** Peel one store action off a state and recognise it as a [dispatch]. *)
Ltac store_step :=
  first
    [ assumption
    | apply Store.reachable_init
    | apply (Store.reachable_dispatch (Store.SetPokemonList _ _))
    | apply (Store.reachable_dispatch (Store.SetLoading _))
    | apply (Store.reachable_dispatch (Store.SetRefreshing _))
    | apply (Store.reachable_dispatch (Store.SetError _))
    | apply (Store.reachable_dispatch (Store.SetHasMore _))
    | apply (Store.reachable_dispatch (Store.SetPagination _))
    | apply (Store.reachable_dispatch (Store.SetSearchQuery _))
    | apply (Store.reachable_dispatch Store.ResetList)
    | apply (Store.reachable_dispatch (Store.SetSelectedPokemon _))
    | apply (Store.reachable_dispatch (Store.SetDetailLoading _))
    | apply (Store.reachable_dispatch (Store.SetDetailError _))
    | apply (Store.reachable_dispatch Store.ResetDetail) ].

Ltac store_steps := simpl; repeat store_step.

(** * Properties *)

(** ** Strings and filtering *)

Lemma includes_empty hay : Js.includes hay "" = true.
Proof. destruct hay; reflexivity. Qed.

Lemma truthy_false s : Js.truthy s = false <-> s = "".
Proof. destruct s; simpl; split; congruence. Qed.

Lemma toLowerCase_truthy s : Js.truthy (Js.toLowerCase s) = Js.truthy s.
Proof. destruct s; reflexivity. Qed.

Lemma filter_all {A} (l : list A) : List.filter (fun _ => true) l = l.
Proof. induction l as [|x l IH]; simpl; [reflexivity | now rewrite IH]. Qed.

Lemma filter_sublist {A} (f : A -> bool) (l : list A) :
  sublist (List.filter f l) l.
Proof.
  induction l as [|x l IH]; simpl.
  - constructor.
  - destruct (f x); now constructor.
Qed.

(** The conditional both [setPokemonList] and [setSearchQuery] evaluate is the
    specification's filtered view. *)
Lemma source_view_is_spec_view (q : string) (l : list Pokemon) :
  (if Js.truthy (Js.toLowerCase q)
   then Store.filterByQuery (Js.toLowerCase q) l
   else l) = Store.spec_filtered q l.
Proof.
  destruct q as [|c q]; simpl.
  - unfold Store.spec_filtered. now rewrite filter_all.
  - reflexivity.
Qed.

Lemma spec_filtered_empty_term (l : list Pokemon) :
  Store.spec_filtered "" l = l.
Proof. apply filter_all. Qed.

Lemma dispatch_view_consistent (a : Store.Action) (s : PokemonStore) :
  Store.view_consistent s -> Store.view_consistent (Store.dispatch a s).
Proof.
  unfold Store.view_consistent.
  intros H; destruct a; simpl; try exact H;
    try apply source_view_is_spec_view.
  reflexivity.
Qed.

Lemma reachable_view_consistent (s : PokemonStore) :
  Store.reachable s -> Store.view_consistent s.
Proof.
  induction 1 as [|a s _ IH].
  - reflexivity.
  - now apply dispatch_view_consistent.
Qed.

(** C1. In every state the store can reach through its actions, the filtered
    view is the accumulated list restricted to the entries whose lowercased
    name contains the lowercased search term, in the order of the accumulated
    list; for the empty term it is the whole accumulated list. *)
Theorem filtered_view_invariant (s : PokemonStore) :
  Store.reachable s ->
  filteredList s = Store.spec_filtered (searchQuery s) (pokemonList s)
  /\ sublist (filteredList s) (pokemonList s)
  /\ (searchQuery s = "" -> filteredList s = pokemonList s).
Proof.
  intros Hs.
  pose proof (reachable_view_consistent s Hs) as Hv.
  unfold Store.view_consistent in Hv.
  split; [exact Hv|]. split.
  - rewrite Hv. apply filter_sublist.
  - intros Hq. rewrite Hv, Hq. apply spec_filtered_empty_term.
Qed.

Lemma filtered_view_invariant_witness :
  Store.reachable searching_store
  /\ List.map name (filteredList searching_store)
     = ["Pikachu"; "raichu"; "pichu"]
  /\ filteredList searching_store
     = Store.spec_filtered (searchQuery searching_store)
         (pokemonList searching_store).
Proof.
  assert (Hr : Store.reachable searching_store)
    by (repeat apply Store.reachable_dispatch; apply Store.reachable_init).
  split; [exact Hr|]. split; [reflexivity|].
  exact (proj1 (filtered_view_invariant searching_store Hr)).
Defined.

(** The controllers touch the store through its actions only, so neither
    the synchronous part of a call nor its continuation, run in whatever
    reachable state the settlement finds, leaves the reachable states. *)
Lemma list_controller_stays_reachable
    (c : Rendered) (w w' : World) (o : Outcome ListPage) :
  Store.reachable (store w) -> Store.reachable (store w') ->
  (Store.reachable (store (world_of (loadInitialData w)))
   /\ Store.reachable (store (settle (loadInitialData w) o w')))
  /\ (Store.reachable (store (world_of (loadMoreData c w)))
      /\ Store.reachable (store (settle (loadMoreData c w) o w')))
  /\ (Store.reachable (store (world_of (refreshData c w)))
      /\ Store.reachable (store (settle (refreshData c w) o w')))
  /\ (Store.reachable (store (world_of (handleEndReached c w)))
      /\ Store.reachable (store (settle (handleEndReached c w) o w'))).
Proof.
  intros Hw Hw'.
  unfold handleEndReached, loadInitialData, loadMoreData, refreshData.
  destruct (isFetchingRef w), (isLoadingMoreRef w), (r_hasMore c),
    (r_isLoading c), (r_isRefreshing c), (Js.truthy (r_searchQuery c)), o;
    repeat split; store_steps.
Qed.

Lemma detail_controller_stays_reachable
    (idOrName : IdOrName) (w w' : World) (o : Outcome PokemonDetail) :
  Store.reachable (store w) -> Store.reachable (store w') ->
  Store.reachable (store (world_of (fetchDetail idOrName w)))
  /\ Store.reachable (store (settle (fetchDetail idOrName w) o w'))
  /\ Store.reachable (store (cleanup w)).
Proof.
  intros Hw Hw'. destruct o; repeat split; store_steps.
Qed.

(** ** The fetch controllers *)

(** When its guard is open, [refreshData] suspends on the first page. *)
Lemma refreshData_issues (c : Rendered) (w : World) :
  isFetchingRef w = false -> r_isLoading c = false ->
  request_of (refreshData c w)
  = Some (FetchPokemonList {| limit := 20; offset := 0 |})
  /\ network (world_of (refreshData c w))
     = (network w ++ [FetchPokemonList {| limit := 20; offset := 0 |}])%list.
Proof.
  intros Hf Hl. unfold refreshData. rewrite Hf, Hl. simpl. split; reflexivity.
Qed.

Lemma loadInitialData_issues (w : World) :
  isFetchingRef w = false ->
  request_of (loadInitialData w)
  = Some (FetchPokemonList {| limit := 20; offset := 0 |})
  /\ network (world_of (loadInitialData w))
     = (network w ++ [FetchPokemonList {| limit := 20; offset := 0 |}])%list.
Proof.
  intros Hf. unfold loadInitialData. rewrite Hf. simpl. split; reflexivity.
Qed.

(** C2. A refresh whose page fetch is rejected leaves the accumulated list and
    the filtered view as they were: nothing is cleared before the promise
    settles, nothing is cleared when it settles with a rejection (whatever
    the world has become meanwhile), and so nothing is cleared overall. *)
Theorem failed_refresh_keeps_list (c : Rendered) (w : World) (err : Thrown) :
  let call := refreshData c w in
  (pokemonList (store (world_of call)) = pokemonList (store w)
   /\ filteredList (store (world_of call)) = filteredList (store w))
  /\ (forall w',
        pokemonList (store (settle call (Rejected err) w'))
        = pokemonList (store w')
        /\ filteredList (store (settle call (Rejected err) w'))
           = filteredList (store w'))
  /\ (pokemonList (store (complete call (Rejected err))) = pokemonList (store w)
      /\ filteredList (store (complete call (Rejected err)))
         = filteredList (store w)).
Proof.
  unfold refreshData.
  destruct (isFetchingRef w || r_isLoading c); simpl; repeat split.
Qed.

(** C8. When [loadInitialData] fetches and the fetch is rejected, the error
    field holds the classified message of that rejection and the accumulated
    list and filtered view are untouched; whatever the outcome, the loading
    flag and the in-flight guard are both false once it has completed. *)
Theorem loadInitial_failure_and_finally
    (w : World) (err : Thrown) (o : Outcome ListPage) :
  isFetchingRef w = false ->
  let failed := complete (loadInitialData w) (Rejected err) in
  let finished := complete (loadInitialData w) o in
  request_of (loadInitialData w)
  = Some (FetchPokemonList {| limit := 20; offset := 0 |})
  /\ error (store failed) = Some (getErrorMessage err)
  /\ pokemonList (store failed) = pokemonList (store w)
  /\ filteredList (store failed) = filteredList (store w)
  /\ isLoading (store finished) = false
  /\ isFetchingRef finished = false.
Proof.
  intros Hf. unfold loadInitialData. rewrite Hf. simpl.
  repeat split; destruct o; reflexivity.
Qed.

Lemma loadInitial_failure_and_finally_witness :
  isFetchingRef loaded_world = false
  /\ error (store (complete (loadInitialData loaded_world)
                     (Rejected offline_error)))
     = Some "Network error. Please check your internet connection."
  /\ pokemonList (store (complete (loadInitialData loaded_world)
                           (Rejected offline_error)))
     = page_pokemon sample_page_1.
Proof.
  split; [reflexivity|].
  pose proof (loadInitial_failure_and_finally loaded_world offline_error
                (Rejected offline_error) eq_refl) as H.
  simpl in H. destruct H as (_ & He & Hl & _).
  split; [exact He | exact Hl].
Defined.

(** C10. A refresh that fetches and succeeds leaves the search term empty, and
    the accumulated list and the filtered view both equal to the fresh page,
    whatever the term was when the refresh began. *)
Theorem refresh_success_clears_search
    (c : Rendered) (w : World) (page : ListPage) :
  isFetchingRef w = false -> r_isLoading c = false ->
  let w' := complete (refreshData c w) (Resolved page) in
  searchQuery (store w') = ""
  /\ pokemonList (store w') = page_pokemon page
  /\ filteredList (store w') = page_pokemon page.
Proof.
  intros Hf Hl. unfold refreshData. rewrite Hf, Hl. simpl.
  repeat split.
Qed.

Lemma refresh_success_clears_search_witness :
  searchQuery (store searching_world) = "pika"
  /\ List.map name (filteredList (store searching_world)) = ["Pikachu"]
  /\ let w' := complete (refreshData (render (store searching_world))
                           searching_world) (Resolved sample_page_2) in
     searchQuery (store w') = ""
     /\ pokemonList (store w') = page_pokemon sample_page_2
     /\ filteredList (store w') = page_pokemon sample_page_2.
Proof.
  split; [reflexivity|]. split; [reflexivity|].
  exact (refresh_success_clears_search (render (store searching_world))
           searching_world sample_page_2 eq_refl eq_refl).
Defined.

(** ** Incremental loading *)

Lemma loadMoreData_guarded (c : Rendered) (w : World) :
  isLoadingMoreRef w = true -> loadMoreData c w = Returned w.
Proof. intros Hm. unfold loadMoreData. now rewrite Hm. Qed.

(** Once a page says there is nothing more, [loadMoreData] is a no-op. *)
Lemma loadMoreData_exhausted (c : Rendered) (w : World) :
  r_hasMore c = false -> loadMoreData c w = Returned w.
Proof.
  intros Hh. unfold loadMoreData. rewrite Hh.
  now rewrite orb_true_r.
Qed.

Section GuardsOpen.

(** A call of [loadMoreData], created by a render [c], in a world [w] where
    none of its four guards holds it back. *)
Variables (c : Rendered) (w : World).
Hypothesis ref_clear : isLoadingMoreRef w = false.
Hypothesis more_known : r_hasMore c = true.
Hypothesis not_loading : r_isLoading c = false.
Hypothesis not_refreshing : r_isRefreshing c = false.

Lemma loadMoreData_suspends :
  loadMoreData c w
  = await (FetchPokemonList (r_pagination c)) (set_isLoadingMoreRef true w)
      (fun outcome =>
         match outcome with
         | Resolved page =>
             act (Store.setPokemonList (page_pokemon page) true) >>>
             act (Store.setHasMore (page_hasMore page)) >>>
             act (Store.setPagination
                    {| limit := limit (r_pagination c);
                       offset := offset (r_pagination c)
                                 + limit (r_pagination c) |})
         | Rejected err => console_error
         end >>>
         set_isLoadingMoreRef false).
Proof.
  unfold loadMoreData.
  now rewrite ref_clear, more_known, not_loading, not_refreshing.
Qed.

Lemma loadMoreData_success (page : ListPage) :
  complete (loadMoreData c w) (Resolved page)
  = {| store :=
         Store.setPagination
           {| limit := limit (r_pagination c);
              offset := offset (r_pagination c) + limit (r_pagination c) |}
           (Store.setHasMore (page_hasMore page)
              (Store.setPokemonList (page_pokemon page) true (store w)));
       isFetchingRef := isFetchingRef w;
       isLoadingMoreRef := false;
       network := (network w ++ [FetchPokemonList (r_pagination c)])%list |}.
Proof. rewrite loadMoreData_suspends. reflexivity. Qed.

(** A rejected incremental load changes nothing the user sees: the store is
    as it was, only the request log grew. *)
Lemma loadMoreData_failure (err : Thrown) :
  complete (loadMoreData c w) (Rejected err)
  = {| store := store w;
       isFetchingRef := isFetchingRef w;
       isLoadingMoreRef := false;
       network := (network w ++ [FetchPokemonList (r_pagination c)])%list |}.
Proof. rewrite loadMoreData_suspends. reflexivity. Qed.

(** C5. With its guards open, [loadMoreData] issues one request and sets the
    in-flight guard; while the guard is set, in whatever world and from
    whatever render, another invocation returns at once, leaving the world
    and its request log as they are, so one request went out in total;
    and when the pending request settles, resolved or rejected, the guard is
    cleared. *)
Theorem loadMore_single_flight (c' : Rendered) (o : Outcome ListPage) :
  let first := loadMoreData c w in
  let second := loadMoreData c' (world_of first) in
  request_of first = Some (FetchPokemonList (r_pagination c))
  /\ isLoadingMoreRef (world_of first) = true
  /\ second = Returned (world_of first)
  /\ request_of second = None
  /\ network (world_of second)
     = (network w ++ [FetchPokemonList (r_pagination c)])%list
  /\ (forall w', isLoadingMoreRef w' = true ->
                 loadMoreData c' w' = Returned w')
  /\ (forall w', isLoadingMoreRef (settle first o w') = false)
  /\ network (settle first o (world_of second))
     = (network w ++ [FetchPokemonList (r_pagination c)])%list.
Proof.
  intros first second.
  assert (Hsecond : second = Returned (world_of first)).
  { subst second first. apply loadMoreData_guarded.
    now rewrite loadMoreData_suspends. }
  rewrite Hsecond. subst first. rewrite loadMoreData_suspends. simpl.
  repeat split.
  - intros w' Hw'. now apply loadMoreData_guarded.
  - destruct o; reflexivity.
Qed.

End GuardsOpen.

Lemma loadMore_single_flight_witness :
  isLoadingMoreRef loaded_world = false
  /\ hasMore (store loaded_world) = true
  /\ let first := loadMoreData (render (store loaded_world)) loaded_world in
     let second := loadMoreData (render (store loading_more_world))
                     (world_of first) in
     request_of first
     = Some (FetchPokemonList {| limit := 20; offset := 20 |})
     /\ request_of second = None
     /\ network (settle first (Rejected offline_error) (world_of second))
        = [FetchPokemonList {| limit := 20; offset := 0 |};
           FetchPokemonList {| limit := 20; offset := 20 |}].
Proof.
  split; [reflexivity|]. split; [reflexivity|].
  destruct (loadMore_single_flight (render (store loaded_world)) loaded_world
              eq_refl eq_refl eq_refl eq_refl
              (render (store loading_more_world)) (Rejected offline_error))
    as (Hreq & _ & _ & Hnone & _ & _ & _ & Hnet).
  split; [exact Hreq|]. split; [exact Hnone | exact Hnet].
Defined.

Lemma total_length_concat (pages : list ListPage) :
  length (concat (List.map page_pokemon pages)) = total_length pages.
Proof.
  induction pages as [|p ps IH]; simpl; [reflexivity|].
  now rewrite List.length_app, IH.
Qed.

(** The first page announces what the rest of a chain needs. *)
Lemma more_until_last_cons (p : ListPage) (ps : list ListPage) :
  more_until_last (p :: ps) = true ->
  match ps with [] => True | _ :: _ => page_hasMore p = true end
  /\ more_until_last ps = true.
Proof.
  destruct ps as [|q qs]; [now split|].
  cbn [more_until_last]. intros H. now apply andb_prop in H.
Qed.

(** Successive incremental loads append their pages and walk the cursor. *)
Lemma loadMorePages_appends (pages : list ListPage) :
  forall (w : World) (start : Z),
    isLoadingMoreRef w = false ->
    isLoading (store w) = false ->
    isRefreshing (store w) = false ->
    pagination (store w) = {| limit := 20; offset := start |} ->
    match pages with [] => True | _ :: _ => hasMore (store w) = true end ->
    more_until_last pages = true ->
    pokemonList (store (loadMorePages pages w))
    = (pokemonList (store w) ++ concat (List.map page_pokemon pages))%list
    /\ network (loadMorePages pages w)
       = (network w ++ cursors (length pages) start)%list.
Proof.
  induction pages as [|p ps IH]; intros w start Hm Hl Hr Hp Hh Hc.
  - simpl. now rewrite !List.app_nil_r.
  - cbn [loadMorePages].
    rewrite (loadMoreData_success (render (store w)) w Hm Hh Hl Hr p).
    cbn [render r_pagination]. rewrite Hp. cbn [limit offset].
    destruct (more_until_last_cons p ps Hc) as [Hh' Hc'].
    match goal with
    | |- context [loadMorePages ps ?w1] =>
        destruct (IH w1 (start + 20)) as [Hlist Hnet];
          [reflexivity | exact Hl | exact Hr | reflexivity
          | destruct ps; [exact I | exact Hh'] | exact Hc' | ]
    end.
    rewrite Hlist, Hnet. simpl.
    rewrite <- !List.app_assoc. split; reflexivity.
Qed.

(** C3. One successful initial load followed by successful incremental loads,
    each page fetch really issued: the accumulated list is the concatenation
    of the returned pages in arrival order, its length is the sum of their
    lengths, and exactly one request per page went out, at offsets 0, 20,
    40, ... *)
Theorem accumulated_is_concatenation
    (w : World) (first : ListPage) (more : list ListPage) :
  isFetchingRef w = false ->
  isLoadingMoreRef w = false ->
  isRefreshing (store w) = false ->
  more_until_last (first :: more) = true ->
  let w' := loadMorePages more
              (complete (loadInitialData w) (Resolved first)) in
  pokemonList (store w') = concat (List.map page_pokemon (first :: more))
  /\ length (pokemonList (store w')) = total_length (first :: more)
  /\ network w' = (network w ++ cursors (length (first :: more)) 0)%list.
Proof.
  intros Hf Hm Hr Hc w'.
  set (w0 := complete (loadInitialData w) (Resolved first)) in *.
  assert (Hw0 : isLoadingMoreRef w0 = false
                /\ isLoading (store w0) = false
                /\ isRefreshing (store w0) = false
                /\ pagination (store w0) = {| limit := 20; offset := 20 |}
                /\ hasMore (store w0) = page_hasMore first
                /\ pokemonList (store w0) = page_pokemon first
                /\ network w0 = (network w ++ cursors 1 0)%list).
  { subst w0. unfold loadInitialData. rewrite Hf. simpl. now repeat split. }
  destruct Hw0 as (Hm0 & Hl0 & Hr0 & Hp0 & Hh0 & Hlist0 & Hnet0).
  destruct (more_until_last_cons first more Hc) as [Hh Hc'].
  rewrite <- Hh0 in Hh.
  destruct (loadMorePages_appends more w0 20 Hm0 Hl0 Hr0 Hp0 Hh Hc')
    as [Hlist Hnet].
  fold w' in Hlist, Hnet.
  assert (Hcat : pokemonList (store w')
                 = concat (List.map page_pokemon (first :: more))).
  { rewrite Hlist, Hlist0. reflexivity. }
  split; [exact Hcat|]. split.
  - rewrite Hcat. apply total_length_concat.
  - rewrite Hnet, Hnet0. simpl. now rewrite <- List.app_assoc.
Qed.

Lemma accumulated_is_concatenation_witness :
  more_until_last [sample_page_1; sample_page_2] = true
  /\ let w' := loadMorePages [sample_page_2]
                 (complete (loadInitialData initialWorld)
                    (Resolved sample_page_1)) in
     pokemonList (store w')
     = [sample_entry 1 "bulbasaur"; sample_entry 25 "Pikachu";
        sample_entry 26 "raichu"; sample_entry 172 "pichu"]
     /\ length (pokemonList (store w')) = 4%nat
     /\ network w'
        = [FetchPokemonList {| limit := 20; offset := 0 |};
           FetchPokemonList {| limit := 20; offset := 20 |}].
Proof.
  split; [reflexivity|].
  exact (accumulated_is_concatenation initialWorld sample_page_1
           [sample_page_2] eq_refl eq_refl eq_refl eq_refl).
Defined.

(** ** Search and the scroll-end handler *)

(** C4, as stated, fails: [loadMoreData] does not look at the search term.
    With the term "pika" active it fetches the next page and sets its guard. *)
Lemma loadMoreData_fetches_while_searching :
  searchQuery (store searching_world) = "pika"
  /\ request_of (loadMoreData (render (store searching_world)) searching_world)
     = Some (FetchPokemonList {| limit := 20; offset := 20 |})
  /\ network (world_of (loadMoreData (render (store searching_world))
                          searching_world))
     <> network searching_world
  /\ isLoadingMoreRef (world_of (loadMoreData (render (store searching_world))
                                   searching_world))
     <> isLoadingMoreRef searching_world.
Proof. repeat split; discriminate. Qed.

Lemma handleEndReached_searching (c : Rendered) (w : World) :
  r_searchQuery c <> "" -> handleEndReached c w = Returned w.
Proof.
  intros Hq. unfold handleEndReached.
  destruct (r_searchQuery c); [congruence|].
  simpl. now rewrite andb_false_r.
Qed.

(** C4, amended. The gate on the search term is in the scroll-end handler:
    in every state whose search term is non-empty, [handleEndReached] does
    not call [loadMoreData]; it issues no request and leaves the state,
    request log included, unchanged. *)
Theorem endReached_suspended_while_searching (w : World) :
  searchQuery (store w) <> "" ->
  let call := handleEndReached (render (store w)) w in
  call = Returned w
  /\ request_of call = None
  /\ world_of call = w
  /\ network (world_of call) = network w.
Proof.
  intros Hq call.
  assert (Hcall : call = Returned w)
    by (subst call; now apply handleEndReached_searching).
  rewrite Hcall. now repeat split.
Qed.

Lemma endReached_suspended_while_searching_witness :
  searchQuery (store searching_world) <> ""
  /\ hasMore (store searching_world) = true
  /\ let call := handleEndReached (render (store searching_world))
                   searching_world in
     call = Returned searching_world
     /\ request_of call = None
     /\ world_of call = searching_world
     /\ network (world_of call) = network searching_world.
Proof.
  assert (Hq : searchQuery (store searching_world) <> "") by discriminate.
  split; [exact Hq|]. split; [reflexivity|].
  exact (endReached_suspended_while_searching searching_world Hq).
Defined.

(** With no search term the handler is [loadMoreData] behind the same flags. *)
Lemma handleEndReached_not_searching (c : Rendered) (w : World) :
  r_searchQuery c = "" -> handleEndReached c w = loadMoreData c w.
Proof.
  intros Hq. unfold handleEndReached, loadMoreData. rewrite Hq. simpl.
  destruct (r_isLoading c), (r_isRefreshing c), (r_hasMore c),
    (isLoadingMoreRef w); reflexivity.
Qed.

(** ** Refresh and the in-flight guards *)

(** C6, as stated, fails: with an incremental load in flight (its guard set)
    and with a detail fetch in flight, [refreshData] still issues a request
    and changes the state. *)
Lemma refresh_during_other_fetches :
  isLoadingMoreRef loading_more_world = true
  /\ request_of (refreshData (render (store loading_more_world))
                   loading_more_world)
     = Some (FetchPokemonList {| limit := 20; offset := 0 |})
  /\ isRefreshing (store (world_of
       (refreshData (render (store loading_more_world)) loading_more_world)))
     <> isRefreshing (store loading_more_world)
  /\ let detail_pending := world_of (fetchDetail (IdNumber 25) loaded_world) in
     detailLoading (store detail_pending) = true
     /\ request_of (refreshData (render (store detail_pending)) detail_pending)
        = Some (FetchPokemonList {| limit := 20; offset := 0 |}).
Proof. repeat split; discriminate. Qed.

(** C6, amended. [refreshData] is a no-op, issuing no request and changing
    nothing, exactly when an initial or refresh fetch is in flight
    ([isFetchingRef]) or the list-loading flag it rendered with is set;
    otherwise it requests the first page, whatever the incremental-load guard
    and the detail-loading flag say. *)
Theorem refresh_guard (c : Rendered) (w : World) :
  (isFetchingRef w = true \/ r_isLoading c = true ->
   refreshData c w = Returned w
   /\ request_of (refreshData c w) = None
   /\ world_of (refreshData c w) = w)
  /\ (isFetchingRef w = false -> r_isLoading c = false ->
      request_of (refreshData c w)
      = Some (FetchPokemonList {| limit := 20; offset := 0 |})
      /\ network (world_of (refreshData c w))
         = (network w ++ [FetchPokemonList {| limit := 20; offset := 0 |}])%list).
Proof.
  split.
  - intros Hg.
    assert (Hb : isFetchingRef w || r_isLoading c = true).
    { destruct Hg as [-> | ->]; [reflexivity | apply orb_true_r]. }
    unfold refreshData. rewrite Hb. now repeat split.
  - apply refreshData_issues.
Qed.

Lemma refresh_guard_witness :
  let pending := world_of (loadInitialData initialWorld) in
  ((isFetchingRef pending = true /\ isLoading (store pending) = true)
   /\ refreshData (render (store pending)) pending = Returned pending
   /\ request_of (refreshData (render (store pending)) pending) = None
   /\ world_of (refreshData (render (store pending)) pending) = pending)
  /\ ((isFetchingRef loading_more_world = false
       /\ isLoading (store loading_more_world) = false
       /\ isLoadingMoreRef loading_more_world = true)
      /\ request_of (refreshData (render (store loading_more_world))
                       loading_more_world)
         = Some (FetchPokemonList {| limit := 20; offset := 0 |})
      /\ network (world_of (refreshData (render (store loading_more_world))
                              loading_more_world))
         = [FetchPokemonList {| limit := 20; offset := 0 |};
            FetchPokemonList {| limit := 20; offset := 20 |};
            FetchPokemonList {| limit := 20; offset := 0 |}]).
Proof.
  split.
  - split; [split; reflexivity|].
    exact (proj1 (refresh_guard
                    (render (store (world_of (loadInitialData initialWorld))))
                    (world_of (loadInitialData initialWorld)))
             (or_introl eq_refl)).
  - split; [repeat split|].
    exact (proj2 (refresh_guard (render (store loading_more_world))
                    loading_more_world) eq_refl eq_refl).
Defined.

(** ** The pagination cursor *)

(** C7, as stated, fails: after a successful initial load the stored cursor
    is at offset 20, not 0, and after a failed one it is wherever it was. *)
Lemma cursor_after_initial_load :
  pagination (store (complete (loadInitialData initialWorld)
                       (Resolved sample_page_1)))
  = {| limit := 20; offset := 20 |}
  /\ pagination (store (complete (loadInitialData initialWorld)
                          (Resolved sample_page_1)))
     <> {| limit := 20; offset := 0 |}
  /\ pagination (store (complete (loadInitialData loaded_world)
                          (Rejected offline_error)))
     <> {| limit := 20; offset := 0 |}.
Proof. repeat split; discriminate. Qed.

(** C7, amended. An initial load and a refresh request the page at
    [{limit 20, offset 0}] and, when it arrives, store the cursor
    [{limit 20, offset 20}]; when the fetch is rejected they leave the stored
    cursor alone.  A successful incremental load issued from a render of the
    current state requests the page at the stored cursor and stores that
    cursor with its offset advanced by its limit. *)
Theorem pagination_cursor
    (c : Rendered) (w : World) (page : ListPage) (err : Thrown) :
  (isFetchingRef w = false ->
   request_of (loadInitialData w)
   = Some (FetchPokemonList {| limit := 20; offset := 0 |})
   /\ pagination (store (complete (loadInitialData w) (Resolved page)))
      = {| limit := 20; offset := 20 |}
   /\ pagination (store (complete (loadInitialData w) (Rejected err)))
      = pagination (store w))
  /\ (isFetchingRef w = false -> r_isLoading c = false ->
      request_of (refreshData c w)
      = Some (FetchPokemonList {| limit := 20; offset := 0 |})
      /\ pagination (store (complete (refreshData c w) (Resolved page)))
         = {| limit := 20; offset := 20 |}
      /\ pagination (store (complete (refreshData c w) (Rejected err)))
         = pagination (store w))
  /\ (isLoadingMoreRef w = false -> hasMore (store w) = true ->
      isLoading (store w) = false -> isRefreshing (store w) = false ->
      let call := loadMoreData (render (store w)) w in
      request_of call = Some (FetchPokemonList (pagination (store w)))
      /\ pagination (store (complete call (Resolved page)))
         = {| limit := limit (pagination (store w));
              offset := offset (pagination (store w))
                        + limit (pagination (store w)) |}
      /\ pagination (store (complete call (Rejected err)))
         = pagination (store w)).
Proof.
  split; [|split].
  - intros Hf. unfold loadInitialData. rewrite Hf. now repeat split.
  - intros Hf Hl. unfold refreshData. rewrite Hf, Hl. now repeat split.
  - intros Hm Hh Hl Hr. unfold loadMoreData, render. simpl.
    rewrite Hm, Hh, Hl, Hr. now repeat split.
Qed.

Lemma pagination_cursor_witness :
  (pagination (store (complete (loadInitialData initialWorld)
                        (Resolved sample_page_1)))
   = {| limit := 20; offset := 20 |})
  /\ (pagination (store (complete (refreshData (render (store loaded_world))
                                     loaded_world) (Resolved sample_page_1)))
      = {| limit := 20; offset := 20 |})
  /\ (pagination (store (complete (loadMoreData (render (store loaded_world))
                                     loaded_world) (Resolved sample_page_2)))
      = {| limit := 20; offset := 40 |}).
Proof.
  split; [|split].
  - exact (proj1 (proj2 (proj1 (pagination_cursor (render initialStore)
             initialWorld sample_page_1 offline_error) eq_refl))).
  - exact (proj1 (proj2 (proj1 (proj2 (pagination_cursor
             (render (store loaded_world)) loaded_world sample_page_1
             offline_error)) eq_refl eq_refl))).
  - exact (proj1 (proj2 (proj2 (proj2 (pagination_cursor
             (render (store loaded_world)) loaded_world sample_page_2
             offline_error)) eq_refl eq_refl eq_refl eq_refl))).
Defined.

(** ** The detail controller *)

Lemma not_found_classification (code : option string) :
  code_is code "ECONNABORTED" = false ->
  getErrorMessage (AxiosError code (Some 404)) = "Pokemon not found.".
Proof. intros Hc. simpl. now rewrite Hc. Qed.

(** C9, as stated, fails: [fetchDetail] never clears the stored record.  When
    the response of an abandoned visit arrives during the next one, whose own
    fetch is then rejected as not found, the not-found message sits next to
    the other entry's record. *)
Lemma not_found_next_to_stale_record :
  getErrorMessage not_found_error = "Pokemon not found."
  /\ detailError (store stale_detail_world) = Some "Pokemon not found."
  /\ selectedPokemon (store stale_detail_world) = Some sample_detail
  /\ selectedPokemon (store stale_detail_world) <> None.
Proof. repeat split; discriminate. Qed.

(** C9, amended. A detail fetch rejected with an error classified as not
    found never touches the stored record: issuing the fetch leaves it as it
    was, and the rejection leaves it as it is in the world the rejection
    arrives in, whatever happened while the request was pending (so, with
    nothing in between, it is the record present when the fetch was issued,
    null if that was null).  The rejection sets the detail error to the
    not-found message and clears the loading flag; [cleanup] then sets record
    and error to null, and the fetch issued on entering with another id
    starts from a null record and a null error. *)
Theorem detail_not_found_then_reset
    (idOrName next : IdOrName) (err : Thrown) (w w' : World) :
  getErrorMessage err = "Pokemon not found." ->
  let call := fetchDetail idOrName w in
  let failed := settle call (Rejected err) w' in
  let entered := world_of (detailEffect next (cleanup failed)) in
  selectedPokemon (store (world_of call)) = selectedPokemon (store w)
  /\ selectedPokemon (store failed) = selectedPokemon (store w')
  /\ detailError (store failed) = Some "Pokemon not found."
  /\ detailLoading (store failed) = false
  /\ selectedPokemon (store (complete call (Rejected err)))
     = selectedPokemon (store w)
  /\ detailError (store (complete call (Rejected err)))
     = Some "Pokemon not found."
  /\ selectedPokemon (store (cleanup failed)) = None
  /\ detailError (store (cleanup failed)) = None
  /\ selectedPokemon (store entered) = None
  /\ detailError (store entered) = None.
Proof.
  intros Hnf. unfold detailEffect.
  destruct (truthy_id next); simpl; rewrite Hnf; repeat split.
Qed.

Lemma detail_not_found_then_reset_witness :
  getErrorMessage not_found_error = "Pokemon not found."
  /\ (let failed := complete (fetchDetail (IdNumber 25) initialWorld)
                      (Rejected not_found_error) in
      selectedPokemon (store failed) = None
      /\ detailError (store failed) = Some "Pokemon not found."
      /\ selectedPokemon (store (cleanup failed)) = None
      /\ detailError (store (cleanup failed)) = None)
  /\ (let first := fetchDetail (IdNumber 25) initialWorld in
      let left := cleanup (world_of first) in
      let second := fetchDetail (IdNumber 9999) left in
      let arrived := settle first (Resolved sample_detail) (world_of second) in
      selectedPokemon (store left) = None
      /\ selectedPokemon (store arrived) = Some sample_detail
      /\ selectedPokemon (store (settle second (Rejected not_found_error)
                                   arrived))
         = selectedPokemon (store arrived)
      /\ selectedPokemon
           (store (cleanup (settle second (Rejected not_found_error) arrived)))
         = None).
Proof.
  split; [reflexivity|]. split.
  - destruct (detail_not_found_then_reset (IdNumber 25) (IdNumber 26)
                not_found_error initialWorld
                (world_of (fetchDetail (IdNumber 25) initialWorld)) eq_refl)
      as (_ & _ & _ & _ & Hsel & Herr & _).
    split; [exact Hsel|]. split; [exact Herr|]. split; reflexivity.
  - split; [reflexivity|]. split; [reflexivity|].
    destruct (detail_not_found_then_reset (IdNumber 9999) (IdNumber 26)
                not_found_error
                (cleanup (world_of (fetchDetail (IdNumber 25) initialWorld)))
                (settle (fetchDetail (IdNumber 25) initialWorld)
                   (Resolved sample_detail)
                   (world_of (fetchDetail (IdNumber 9999)
                      (cleanup (world_of
                         (fetchDetail (IdNumber 25) initialWorld))))))
                eq_refl)
      as (_ & Hsame & _ & _ & _ & _ & Hclean & _).
    split; [exact Hsame | exact Hclean].
Defined.

(** * Further properties of the code *)

(** ** Substring search *)

Lemma string_app_assoc (a b c : string) : (a ++ b) ++ c = a ++ (b ++ c).
Proof. induction a as [|x a IH]; simpl; [reflexivity | now rewrite IH]. Qed.

Lemma string_app_nil_r (a : string) : a ++ "" = a.
Proof. induction a as [|x a IH]; simpl; [reflexivity | now rewrite IH]. Qed.

Lemma prefix_iff (s1 s2 : string) :
  String.prefix s1 s2 = true <-> exists t, s2 = s1 ++ t.
Proof.
  revert s2. induction s1 as [|a s1 IH]; intros s2.
  - destruct s2; simpl; split; eauto.
  - destruct s2 as [|b s2]; simpl.
    + split; [discriminate | intros [t Ht]; discriminate].
    + destruct (ascii_dec a b) as [->|Hne].
      * rewrite IH. split; intros [t Ht]; exists t; congruence.
      * split; [discriminate | intros [t Ht]; congruence].
Qed.

Lemma includes_unfold (hay needle : string) :
  Js.includes hay needle
  = if String.prefix needle hay then true
    else match hay with
         | EmptyString => false
         | String _ rest => Js.includes rest needle
         end.
Proof. destruct hay; reflexivity. Qed.

(** [includes] is substring search. *)
Lemma includes_iff (hay needle : string) :
  Js.includes hay needle = true
  <-> exists pre post, hay = pre ++ needle ++ post.
Proof.
  split.
  - induction hay as [|c hay IH]; rewrite includes_unfold;
      destruct (String.prefix needle _) eqn:Hp.
    + intros _. apply prefix_iff in Hp as [t Ht]. now exists "", t.
    + discriminate.
    + intros _. apply prefix_iff in Hp as [t Ht]. now exists "", t.
    + intros H. destruct (IH H) as (pre & post & ->).
      now exists (String c pre), post.
  - intros (pre & post & ->).
    induction pre as [|c pre IH]; rewrite includes_unfold.
    + simpl. replace (String.prefix needle (needle ++ post)) with true;
        [reflexivity|].
      symmetry. apply prefix_iff. now exists post.
    + destruct (String.prefix needle _); [reflexivity|]. exact IH.
Qed.

Lemma includes_trans (a b c : string) :
  Js.includes a b = true -> Js.includes b c = true -> Js.includes a c = true.
Proof.
  rewrite !includes_iff.
  intros (p1 & q1 & ->) (p2 & q2 & ->).
  exists (p1 ++ p2), (q2 ++ q1).
  now rewrite !string_app_assoc.
Qed.

Lemma includes_in_empty (needle : string) :
  Js.includes "" needle = true -> needle = "".
Proof.
  rewrite includes_iff. intros (pre & post & H).
  destruct pre; [destruct needle|]; simpl in H; congruence.
Qed.

Lemma toLowerCase_app (a b : string) :
  Js.toLowerCase (a ++ b) = Js.toLowerCase a ++ Js.toLowerCase b.
Proof. induction a as [|x a IH]; simpl; [reflexivity | now rewrite IH]. Qed.

Lemma toLowerCase_empty (s : string) : Js.toLowerCase s = "" -> s = "".
Proof. destruct s; simpl; [reflexivity | discriminate]. Qed.

(** ** Filtering *)

Lemma filter_sublist_mono {A} (f g : A -> bool) (l : list A) :
  (forall x, f x = true -> g x = true) ->
  sublist (List.filter f l) (List.filter g l).
Proof.
  intros Hfg. induction l as [|x l IH]; simpl; [constructor|].
  destruct (f x) eqn:Hf.
  - rewrite (Hfg x Hf). now constructor.
  - destruct (g x); [now constructor | exact IH].
Qed.

Lemma setSearchQuery_view (q : string) (s : PokemonStore) :
  filteredList (Store.setSearchQuery q s)
  = Store.spec_filtered q (pokemonList s).
Proof. apply source_view_is_spec_view. Qed.

(** X1. Narrowing.  If the lowercased term [q] occurs in the lowercased term
    [q'] (as when characters are added to it), the view under [q'] is a
    subsequence of the view under [q]: a longer term never brings an entry
    into view and never reorders. *)
Theorem search_narrows (q q' : string) (s : PokemonStore) :
  Js.includes (Js.toLowerCase q') (Js.toLowerCase q) = true ->
  sublist (filteredList (Store.setSearchQuery q' s))
          (filteredList (Store.setSearchQuery q s)).
Proof.
  intros Hq. rewrite !setSearchQuery_view. unfold Store.spec_filtered.
  apply filter_sublist_mono. intros e He.
  destruct q as [|c q]; [reflexivity|].
  destruct q' as [|c' q'].
  - apply includes_in_empty in Hq. discriminate.
  - eapply includes_trans; eassumption.
Qed.

Lemma search_narrows_witness :
  Js.includes (Js.toLowerCase "piKA") (Js.toLowerCase "Pi") = true
  /\ sublist (filteredList (Store.setSearchQuery "piKA" searching_store))
             (filteredList (Store.setSearchQuery "Pi" searching_store)).
Proof.
  split; [reflexivity|].
  exact (search_narrows "Pi" "piKA" searching_store eq_refl).
Defined.

Lemma typing_more_includes (q more : string) :
  Js.includes (Js.toLowerCase (q ++ more)) (Js.toLowerCase q) = true.
Proof.
  rewrite toLowerCase_app. apply includes_iff.
  exists "", (Js.toLowerCase more). reflexivity.
Qed.

(** X2. Appending a page while a search term is active keeps the visible
    entries where they are and adds, after them, exactly the entries of the
    new page that match the term; the accumulated list grows by the whole
    page. *)
Theorem append_extends_view (page : list Pokemon) (s : PokemonStore) :
  Store.reachable s ->
  let s' := Store.setPokemonList page true s in
  pokemonList s' = (pokemonList s ++ page)%list
  /\ filteredList s'
     = (filteredList s ++ Store.spec_filtered (searchQuery s) page)%list
  /\ searchQuery s' = searchQuery s.
Proof.
  intros Hs s'. split; [reflexivity|]. split; [|reflexivity].
  pose proof (reachable_view_consistent s Hs) as Hv.
  unfold Store.view_consistent in Hv. rewrite Hv.
  unfold s', Store.setPokemonList. cbn [filteredList].
  rewrite source_view_is_spec_view.
  unfold Store.spec_filtered. apply List.filter_app.
Qed.

Lemma append_extends_view_witness :
  Store.reachable searching_store
  /\ let s' := Store.setPokemonList (page_pokemon sample_page_1) true
                 searching_store in
     filteredList s'
     = (filteredList searching_store
        ++ Store.spec_filtered (searchQuery searching_store)
             (page_pokemon sample_page_1))%list.
Proof.
  assert (Hr : Store.reachable searching_store)
    by (repeat apply Store.reachable_dispatch; apply Store.reachable_init).
  split; [exact Hr|].
  exact (proj1 (proj2 (append_extends_view (page_pokemon sample_page_1)
                         searching_store Hr))).
Defined.

(** ** List state and detail state *)

(** X3. The two controllers work on disjoint halves of the store.  No call or
    continuation of the list controller (initial load, incremental load,
    refresh, scroll-end handler), whatever the outcome, changes the detail
    record, its loading flag or its error, and the list reset inside a
    refresh does not clear them either; no call or continuation of the detail
    controller changes anything the list screen reads. *)
Theorem controllers_are_disjoint
    (c : Rendered) (idOrName : IdOrName) (w w' : World)
    (o : Outcome ListPage) (od : Outcome PokemonDetail) :
  (forall call : Async ListPage,
     In call [loadInitialData w; loadMoreData c w; refreshData c w;
              handleEndReached c w; retryFetch w] ->
     detail_slice (store (world_of call)) = detail_slice (store w)
     /\ detail_slice (store (settle call o w')) = detail_slice (store w'))
  /\ (forall call : Async PokemonDetail,
        In call [fetchDetail idOrName w; retry idOrName w;
                 detailEffect idOrName w] ->
        list_slice (store (world_of call)) = list_slice (store w)
        /\ list_slice (store (settle call od w')) = list_slice (store w'))
  /\ list_slice (store (cleanup w)) = list_slice (store w).
Proof.
  split; [|split].
  - intros call Hin. simpl in Hin.
    unfold retryFetch, handleEndReached, loadInitialData, loadMoreData,
      refreshData in Hin.
    destruct (isFetchingRef w), (isLoadingMoreRef w), (r_hasMore c),
      (r_isLoading c), (r_isRefreshing c), (Js.truthy (r_searchQuery c));
      simpl in Hin;
      repeat (destruct Hin as [<- | Hin]; [destruct o; split; reflexivity|]);
      contradiction.
  - intros call Hin. simpl in Hin.
    unfold retry, detailEffect, fetchDetail in Hin.
    destruct (truthy_id idOrName); simpl in Hin;
      repeat (destruct Hin as [<- | Hin]; [destruct od; split; reflexivity|]);
      contradiction.
  - reflexivity.
Qed.

Lemma controllers_are_disjoint_witness :
  selectedPokemon (store stale_detail_world) = Some sample_detail
  /\ detail_slice
       (store (settle (refreshData (render (store loaded_world)) loaded_world)
                 (Resolved sample_page_2) stale_detail_world))
     = detail_slice (store stale_detail_world).
Proof.
  split; [reflexivity|].
  exact (proj2 (proj1 (controllers_are_disjoint (render (store loaded_world))
                         (IdNumber 25) loaded_world stale_detail_world
                         (Resolved sample_page_2) (Resolved sample_detail))
                  (refreshData (render (store loaded_world)) loaded_world)
                  (or_intror (or_intror (or_introl eq_refl))))).
Defined.

(** ** More on incremental loading *)

Lemma loadMorePages_exhausted (pages : list ListPage) (w : World) :
  hasMore (store w) = false -> loadMorePages pages w = w.
Proof.
  intros Hh. induction pages as [|p ps IH]; [reflexivity|].
  cbn [loadMorePages].
  rewrite (loadMoreData_exhausted (render (store w)) w Hh).
  exact IH.
Qed.

Lemma handleEndReached_exhausted (c : Rendered) (w : World) :
  r_hasMore c = false -> handleEndReached c w = Returned w.
Proof.
  intros Hh. unfold handleEndReached. rewrite Hh.
  now rewrite andb_false_r.
Qed.

(** X4. A rejected incremental load is silent.  The store is exactly what it
    was (no error is recorded, [hasMore] and the cursor keep their values) and
    the guard is open again; so the next scroll to the end, from a render of
    that state, requests the very same page once more. *)
Theorem loadMore_failure_is_silent (w : World) (err : Thrown) :
  isLoadingMoreRef w = false -> hasMore (store w) = true ->
  isLoading (store w) = false -> isRefreshing (store w) = false ->
  let w' := complete (loadMoreData (render (store w)) w) (Rejected err) in
  store w' = store w
  /\ isLoadingMoreRef w' = false
  /\ network w' = (network w ++ [FetchPokemonList (pagination (store w))])%list
  /\ request_of (loadMoreData (render (store w')) w')
     = Some (FetchPokemonList (pagination (store w))).
Proof.
  intros Hm Hh Hl Hr w'.
  assert (Hw' : w' = {| store := store w;
                        isFetchingRef := isFetchingRef w;
                        isLoadingMoreRef := false;
                        network := (network w ++
                          [FetchPokemonList (pagination (store w))])%list |})
    by (apply (loadMoreData_failure (render (store w)) w Hm Hh Hl Hr)).
  rewrite Hw'. cbn [store isLoadingMoreRef network].
  repeat split.
  rewrite loadMoreData_suspends; [reflexivity| | | |];
    first [reflexivity | assumption].
Qed.

Lemma loadMore_failure_is_silent_witness :
  hasMore (store loaded_world) = true
  /\ let w' := complete (loadMoreData (render (store loaded_world))
                           loaded_world) (Rejected offline_error) in
     store w' = store loaded_world
     /\ isLoadingMoreRef w' = false
     /\ network w'
        = (network loaded_world
           ++ [FetchPokemonList (pagination (store loaded_world))])%list
     /\ request_of (loadMoreData (render (store w')) w')
        = Some (FetchPokemonList (pagination (store loaded_world))).
Proof.
  split; [reflexivity|].
  exact (loadMore_failure_is_silent loaded_world offline_error
           eq_refl eq_refl eq_refl eq_refl).
Defined.

(** X5. The end of the catalog is sticky.  Once a page arrives that announces
    no next page, by initial load or by incremental load, every further
    incremental load and every scroll to the end, from a render of the
    state, returns without a request and without touching the world, however
    often it is tried; only the request log of the load itself has grown. *)
Theorem end_of_catalog_is_sticky
    (w : World) (last : ListPage) (pages : list ListPage) :
  page_hasMore last = false ->
  (isFetchingRef w = false ->
   let w' := complete (loadInitialData w) (Resolved last) in
   hasMore (store w') = false
   /\ loadMorePages pages w' = w'
   /\ handleEndReached (render (store w')) w' = Returned w')
  /\ (isLoadingMoreRef w = false -> hasMore (store w) = true ->
      isLoading (store w) = false -> isRefreshing (store w) = false ->
      let w' := complete (loadMoreData (render (store w)) w) (Resolved last) in
      hasMore (store w') = false
      /\ loadMorePages pages w' = w'
      /\ handleEndReached (render (store w')) w' = Returned w').
Proof.
  intros Hlast. split.
  - intros Hf w'.
    assert (Hh : hasMore (store w') = false).
    { unfold w', loadInitialData. rewrite Hf. simpl. exact Hlast. }
    split; [exact Hh|]. split.
    + now apply loadMorePages_exhausted.
    + now apply handleEndReached_exhausted.
  - intros Hm Hh0 Hl Hr w'.
    assert (Hh : hasMore (store w') = false).
    { unfold w'.
      rewrite (loadMoreData_success (render (store w)) w Hm Hh0 Hl Hr).
      simpl. exact Hlast. }
    split; [exact Hh|]. split.
    + now apply loadMorePages_exhausted.
    + now apply handleEndReached_exhausted.
Qed.

Lemma end_of_catalog_is_sticky_witness :
  page_hasMore sample_page_2 = false
  /\ (let w' := complete (loadInitialData initialWorld)
                  (Resolved sample_page_2) in
      hasMore (store w') = false
      /\ loadMorePages [sample_page_1; sample_page_1] w' = w'
      /\ handleEndReached (render (store w')) w' = Returned w')
  /\ (let w' := complete (loadMoreData (render (store loaded_world))
                            loaded_world) (Resolved sample_page_2) in
      hasMore (store w') = false
      /\ loadMorePages [sample_page_1; sample_page_1] w' = w'
      /\ handleEndReached (render (store w')) w' = Returned w').
Proof.
  split; [reflexivity|].
  destruct (end_of_catalog_is_sticky loaded_world sample_page_2
              [sample_page_1; sample_page_1] eq_refl) as [_ Hmore].
  destruct (end_of_catalog_is_sticky initialWorld sample_page_2
              [sample_page_1; sample_page_1] eq_refl) as [Hinit _].
  split.
  - exact (Hinit eq_refl).
  - exact (Hmore eq_refl eq_refl eq_refl eq_refl).
Defined.

(** X6. A response that outlives a refresh is still applied.  When an
    incremental load is pending, a refresh is issued and succeeds, and then
    the incremental load's page arrives, the accumulated list is the fresh
    page followed by the late page, [hasMore] is what the late page said, and
    the cursor is the one captured by the incremental load advanced by its
    limit, not the cursor the refresh had stored. *)
Theorem late_page_after_refresh (w : World) (fresh late : ListPage) :
  isLoadingMoreRef w = false -> hasMore (store w) = true ->
  isLoading (store w) = false -> isRefreshing (store w) = false ->
  isFetchingRef w = false ->
  let more := loadMoreData (render (store w)) w in
  let w1 := world_of more in
  let refresh := refreshData (render (store w1)) w1 in
  let w2 := complete refresh (Resolved fresh) in
  let w3 := settle more (Resolved late) w2 in
  request_of more = Some (FetchPokemonList (pagination (store w)))
  /\ request_of refresh
     = Some (FetchPokemonList {| limit := 20; offset := 0 |})
  /\ pokemonList (store w2) = page_pokemon fresh
  /\ pagination (store w2) = {| limit := 20; offset := 20 |}
  /\ pokemonList (store w3) = (page_pokemon fresh ++ page_pokemon late)%list
  /\ hasMore (store w3) = page_hasMore late
  /\ pagination (store w3)
     = {| limit := limit (pagination (store w));
          offset := offset (pagination (store w))
                    + limit (pagination (store w)) |}.
Proof.
  intros Hm Hh Hl Hr Hf more w1 refresh w2 w3.
  subst w3 w2 refresh w1 more.
  rewrite (loadMoreData_suspends (render (store w)) w Hm Hh Hl Hr).
  unfold refreshData. simpl. rewrite Hf, Hl. simpl.
  repeat split.
Qed.

Lemma late_page_after_refresh_witness :
  hasMore (store loaded_world) = true
  /\ let more := loadMoreData (render (store loaded_world)) loaded_world in
     let w1 := world_of more in
     let refresh := refreshData (render (store w1)) w1 in
     let w2 := complete refresh (Resolved sample_page_1) in
     let w3 := settle more (Resolved sample_page_2) w2 in
     pokemonList (store w3)
     = (page_pokemon sample_page_1 ++ page_pokemon sample_page_2)%list
     /\ hasMore (store w3) = false
     /\ pagination (store w3) = {| limit := 20; offset := 40 |}.
Proof.
  split; [reflexivity|].
  destruct (late_page_after_refresh loaded_world sample_page_1 sample_page_2
              eq_refl eq_refl eq_refl eq_refl eq_refl)
    as (_ & _ & _ & _ & Hlist & Hmore & Hcur).
  split; [exact Hlist|]. split; [exact Hmore | exact Hcur].
Defined.

(** ** One guard for initial load, retry and refresh *)

Lemma fetching_guard_closed (c : Rendered) (w : World) :
  isFetchingRef w = true ->
  loadInitialData w = Returned w
  /\ retryFetch w = Returned w
  /\ refreshData c w = Returned w.
Proof.
  intros Hf. unfold retryFetch, loadInitialData, refreshData.
  rewrite Hf. now repeat split.
Qed.

(** X7. Initial load, retry and refresh share one in-flight guard.  From the
    moment an initial load or a refresh has issued its request until that
    request settles, each of the three returns at once, from any render,
    without a request and without changing the world; when the request
    settles, resolved or rejected, the guard is open again and the flag the
    call raised is down. *)
Theorem initial_and_refresh_single_flight
    (c c' : Rendered) (w w' : World) (o : Outcome ListPage) :
  isFetchingRef w = false ->
  (let first := loadInitialData w in
   request_of first = Some (FetchPokemonList {| limit := 20; offset := 0 |})
   /\ isLoading (store (world_of first)) = true
   /\ loadInitialData (world_of first) = Returned (world_of first)
   /\ retryFetch (world_of first) = Returned (world_of first)
   /\ refreshData c' (world_of first) = Returned (world_of first)
   /\ isFetchingRef (settle first o w') = false
   /\ isLoading (store (settle first o w')) = false)
  /\ (r_isLoading c = false ->
      let first := refreshData c w in
      request_of first = Some (FetchPokemonList {| limit := 20; offset := 0 |})
      /\ isRefreshing (store (world_of first)) = true
      /\ loadInitialData (world_of first) = Returned (world_of first)
      /\ retryFetch (world_of first) = Returned (world_of first)
      /\ refreshData c' (world_of first) = Returned (world_of first)
      /\ isFetchingRef (settle first o w') = false
      /\ isRefreshing (store (settle first o w')) = false).
Proof.
  intros Hf. split.
  - intros first.
    assert (Hp : isFetchingRef (world_of first) = true)
      by (unfold first, loadInitialData; now rewrite Hf).
    destruct (fetching_guard_closed c' (world_of first) Hp) as (H1 & H2 & H3).
    repeat split; try assumption;
      unfold first, loadInitialData; rewrite Hf; destruct o; reflexivity.
  - intros Hl first.
    assert (Hp : isFetchingRef (world_of first) = true)
      by (unfold first, refreshData; now rewrite Hf, Hl).
    destruct (fetching_guard_closed c' (world_of first) Hp) as (H1 & H2 & H3).
    repeat split; try assumption;
      unfold first, refreshData; rewrite Hf, Hl; destruct o; reflexivity.
Qed.

Lemma initial_and_refresh_single_flight_witness :
  isFetchingRef loaded_world = false
  /\ let first := refreshData (render (store loaded_world)) loaded_world in
     request_of first = Some (FetchPokemonList {| limit := 20; offset := 0 |})
     /\ loadInitialData (world_of first) = Returned (world_of first)
     /\ retryFetch (world_of first) = Returned (world_of first)
     /\ refreshData (render (store (world_of first))) (world_of first)
        = Returned (world_of first).
Proof.
  split; [reflexivity|].
  destruct (proj2 (initial_and_refresh_single_flight
              (render (store loaded_world))
              (render (store (world_of
                 (refreshData (render (store loaded_world)) loaded_world))))
              loaded_world loaded_world (Rejected offline_error) eq_refl)
              eq_refl)
    as (Hreq & _ & H1 & H2 & H3 & _).
  split; [exact Hreq|]. split; [exact H1|]. split; [exact H2 | exact H3].
Defined.

(** ** Overlapping detail fetches *)

(** X8. The detail controller has no in-flight guard and no notion of which
    request is current.  Of two overlapping detail fetches that both succeed,
    the record left in the store is the one whose response arrived last,
    whichever id was asked for last; and the loading flag drops when the
    first response arrives, while the other request is still pending. *)
Theorem detail_responses_apply_in_arrival_order
    (id1 id2 : IdOrName) (d1 d2 : PokemonDetail) (w : World) :
  let first := fetchDetail id1 w in
  let second := fetchDetail id2 (world_of first) in
  let pending := world_of second in
  network pending
  = (network w ++ [FetchPokemonDetail id1; FetchPokemonDetail id2])%list
  /\ detailLoading (store pending) = true
  /\ (let one := settle second (Resolved d2) pending in
      detailLoading (store one) = false
      /\ selectedPokemon (store one) = Some d2
      /\ selectedPokemon (store (settle first (Resolved d1) one)) = Some d1)
  /\ (let one := settle first (Resolved d1) pending in
      detailLoading (store one) = false
      /\ selectedPokemon (store one) = Some d1
      /\ selectedPokemon (store (settle second (Resolved d2) one)) = Some d2).
Proof.
  simpl. rewrite <- List.app_assoc. now repeat split.
Qed.

(** ** Error classification *)

Lemma code_is_true (code : option string) (expected : string) :
  code_is code expected = true <-> code = Some expected.
Proof.
  destruct code as [c|]; simpl.
  - rewrite String.eqb_eq. split; congruence.
  - split; discriminate.
Qed.

(** X9. How [getErrorMessage] classifies an Axios error.  The message is never
    empty.  The code [ECONNABORTED] gives the timeout message whatever the
    response says; short of that, a missing response gives the network
    message, and the not-found message is given exactly for status 404. *)
Theorem axios_error_classification
    (code : option string) (response : option Z) :
  let message := getErrorMessage (AxiosError code response) in
  Js.truthy message = true
  /\ (code = Some "ECONNABORTED" ->
      message
      = "Request timed out. Please check your connection and try again.")
  /\ (message = "Network error. Please check your internet connection."
      <-> code <> Some "ECONNABORTED" /\ response = None)
  /\ (message = "Pokemon not found."
      <-> code <> Some "ECONNABORTED" /\ response = Some 404).
Proof.
  cbn zeta. unfold getErrorMessage.
  destruct (code_is code "ECONNABORTED") eqn:Hc.
  - apply code_is_true in Hc.
    split; [reflexivity|]. split; [reflexivity|].
    split; (split; [discriminate | intros [Hne _]; contradiction]).
  - assert (Hne : code <> Some "ECONNABORTED").
    { intros H. apply code_is_true in H. congruence. }
    destruct response as [status|].
    + destruct (Z.eqb_spec status 404) as [->|H404].
      * split; [reflexivity|]. split; [contradiction|].
        split; (split; [try discriminate; now split
                       | try reflexivity; intros [_ H]; discriminate]).
      * destruct (status =? 429);
          [|destruct ((status =? 500) || (status =? 502) || (status =? 503))];
          (split; [reflexivity|]; split; [contradiction|];
           split; (split; [discriminate | intros [_ H]; congruence])).
    + split; [reflexivity|]. split; [contradiction|].
      split; (split; [try discriminate; now split
                     | try reflexivity; intros [_ H]; discriminate]).
Qed.

Lemma axios_error_classification_witness :
  getErrorMessage (AxiosError (Some "ECONNABORTED") (Some 404))
  = "Request timed out. Please check your connection and try again."
  /\ getErrorMessage not_found_error = "Pokemon not found.".
Proof.
  split.
  - exact (proj1 (proj2 (axios_error_classification
                           (Some "ECONNABORTED") (Some 404))) eq_refl).
  - apply (proj2 (proj2 (proj2 (axios_error_classification
                                  (Some "ERR_BAD_REQUEST") (Some 404))))).
    split; [discriminate | reflexivity].
Defined.

Lemma axios_message_shown (code : option string) (response : option Z) :
  error_shown (Some (getErrorMessage (AxiosError code response))) = true.
Proof.
  unfold getErrorMessage.
  destruct (code_is code "ECONNABORTED"); [reflexivity|].
  destruct response as [status|]; [|reflexivity].
  destruct (status =? 404); [reflexivity|].
  destruct (status =? 429); [reflexivity|].
  destruct ((status =? 500) || (status =? 502) || (status =? 503));
    reflexivity.
Qed.

(** ** What the list screen shows *)

Lemma listScreen_error (s : PokemonStore) (message : string) :
  isLoading s = false -> error s = Some message ->
  Js.truthy message = true ->
  listScreen s = ErrorScreen message true.
Proof.
  intros Hl He Hm. unfold listScreen, StateHandler, error_shown.
  now rewrite Hl, He, Hm.
Qed.

(** X10. A failed initial load or refresh puts the error screen, with its
    retry button and the classified message, in place of the list, whenever
    that message is not empty (as it is for every Axios error); the entries
    fetched before are still in the store, but the screen does not show
    them. *)
Theorem failure_shows_error_screen (w : World) (err : Thrown) :
  isFetchingRef w = false ->
  Js.truthy (getErrorMessage err) = true ->
  (let w' := complete (loadInitialData w) (Rejected err) in
   listScreen (store w') = ErrorScreen (getErrorMessage err) true
   /\ filteredList (store w') = filteredList (store w))
  /\ (isLoading (store w) = false ->
      let w' := complete (refreshData (render (store w)) w) (Rejected err) in
      listScreen (store w') = ErrorScreen (getErrorMessage err) true
      /\ filteredList (store w') = filteredList (store w)).
Proof.
  intros Hf Hm. split.
  - intros w'. split.
    + apply listScreen_error; [| |exact Hm];
        unfold w', loadInitialData; rewrite Hf; reflexivity.
    + unfold w', loadInitialData. rewrite Hf. reflexivity.
  - intros Hl w'. split.
    + apply listScreen_error; [| |exact Hm];
        unfold w', refreshData, render; simpl; rewrite Hf, Hl; simpl;
        [exact Hl | reflexivity].
    + unfold w', refreshData, render. simpl. rewrite Hf, Hl. reflexivity.
Qed.

Lemma failure_shows_error_screen_witness :
  listScreen (store loaded_world) = Children
  /\ let w' := complete (refreshData (render (store loaded_world))
                           loaded_world) (Rejected server_error) in
     listScreen (store w')
     = ErrorScreen "Server error. Please try again later." true
     /\ filteredList (store w') = page_pokemon sample_page_1.
Proof.
  split; [reflexivity|].
  exact (proj2 (failure_shows_error_screen loaded_world server_error
                  eq_refl eq_refl) eq_refl).
Defined.

(** X11. Starting a load takes a shown error off the screen at once.  While
    an initial load or retry is pending the screen is the spinner if nothing
    is visible and the list otherwise; while a refresh is pending it is the
    list, or, if nothing is visible, the empty-state message (not the
    spinner). *)
Theorem pending_load_screen (w : World) :
  isFetchingRef w = false ->
  (let s := store (world_of (loadInitialData w)) in
   error s = None
   /\ filteredList s = filteredList (store w)
   /\ listScreen s
      = match filteredList (store w) with
        | [] => LoadingScreen
        | _ :: _ => Children
        end)
  /\ (isLoading (store w) = false ->
      let s := store (world_of (refreshData (render (store w)) w)) in
      error s = None
      /\ filteredList s = filteredList (store w)
      /\ listScreen s
         = match filteredList (store w) with
           | [] => EmptyScreen "No Pokémon found"
                     (emptySubMessage (searchQuery (store w)))
           | _ :: _ => Children
           end).
Proof.
  intros Hf. split.
  - unfold loadInitialData. rewrite Hf. simpl.
    split; [reflexivity|]. split; [reflexivity|].
    unfold listScreen, StateHandler. simpl.
    destruct (filteredList (store w)); reflexivity.
  - intros Hl. unfold refreshData, render. simpl. rewrite Hf, Hl. simpl.
    split; [reflexivity|]. split; [reflexivity|].
    unfold listScreen, StateHandler. simpl. rewrite Hl. simpl.
    destruct (filteredList (store w)); reflexivity.
Qed.

Lemma pending_load_screen_witness :
  let failed := complete (loadInitialData initialWorld)
                  (Rejected offline_error) in
  isFetchingRef failed = false
  /\ listScreen (store failed)
     = ErrorScreen "Network error. Please check your internet connection." true
  /\ listScreen (store (world_of (loadInitialData failed))) = LoadingScreen
  /\ listScreen (store (world_of (refreshData (render (store failed)) failed)))
     = EmptyScreen "No Pokémon found" "Pull down to refresh and load Pokémon.".
Proof.
  split; [reflexivity|]. split; [reflexivity|].
  destruct (pending_load_screen
              (complete (loadInitialData initialWorld) (Rejected offline_error))
              eq_refl) as [Hinit Hrefresh].
  split.
  - exact (proj2 (proj2 Hinit)).
  - exact (proj2 (proj2 (Hrefresh eq_refl))).
Defined.

(** ** The list footer and the scroll-end handler *)

(** X12. The footer and the scroll-end handler agree.  Whenever the footer is
    not the spinner, scrolling to the end fetches nothing; whenever it is the
    spinner and no incremental load is pending, scrolling to the end requests
    the page at the stored cursor.  The spinner therefore shows that more can
    be loaded, not that a load is running; it never shows during a search, and
    the end-of-list message shows exactly when no further page is known and
    at least one entry is visible. *)
Theorem footer_matches_scroll_end (w : World) :
  let s := store w in
  (renderFooter s <> FooterSpinner ->
   handleEndReached (render s) w = Returned w)
  /\ (renderFooter s = FooterSpinner -> isLoadingMoreRef w = false ->
      request_of (handleEndReached (render s) w)
      = Some (FetchPokemonList (pagination s)))
  /\ (searchQuery s <> "" -> renderFooter s <> FooterSpinner)
  /\ (renderFooter s = FooterEndOfList
      <-> hasMore s = false /\ filteredList s <> []).
Proof.
  cbn zeta.
  unfold renderFooter, LoadingFooter, handleEndReached, loadMoreData, render.
  simpl.
  destruct (isLoading (store w)), (isRefreshing (store w)),
    (hasMore (store w)), (searchQuery (store w)) as [|ch q],
    (isLoadingMoreRef w), (filteredList (store w)) as [|e l];
    simpl; repeat split; intros; try congruence; try discriminate;
    try (destruct H; congruence).
Qed.

Lemma footer_matches_scroll_end_witness :
  (renderFooter (store loaded_world) = FooterSpinner
   /\ isLoadingMoreRef loaded_world = false
   /\ request_of (handleEndReached (render (store loaded_world)) loaded_world)
      = Some (FetchPokemonList {| limit := 20; offset := 20 |}))
  /\ (renderFooter (store searching_world) <> FooterSpinner
      /\ handleEndReached (render (store searching_world)) searching_world
         = Returned searching_world).
Proof.
  split.
  - split; [reflexivity|]. split; [reflexivity|].
    exact (proj1 (proj2 (footer_matches_scroll_end loaded_world))
             eq_refl eq_refl).
  - assert (H : renderFooter (store searching_world) <> FooterSpinner)
      by discriminate.
    split; [exact H|].
    exact (proj1 (footer_matches_scroll_end searching_world) H).
Defined.

(** ** Decimal numerals *)

Lemma digit_char_spec (d : Z) :
  0 <= d < 10 ->
  JsText.is_digit (JsText.digit_char d) = true
  /\ JsText.digit_value (JsText.digit_char d) = d.
Proof.
  intros Hd.
  assert (H : d = 0 \/ d = 1 \/ d = 2 \/ d = 3 \/ d = 4 \/ d = 5 \/ d = 6
              \/ d = 7 \/ d = 8 \/ d = 9) by lia.
  repeat (destruct H as [-> | H]; [split; reflexivity|]).
  subst d. split; reflexivity.
Qed.

Lemma is_digit_value (c : ascii) :
  JsText.is_digit c = true -> 0 <= JsText.digit_value c <= 9.
Proof.
  unfold JsText.is_digit, JsText.digit_value. cbn zeta.
  rewrite andb_true_iff, !Nat.leb_le. lia.
Qed.

Lemma parse_decimal_go (fuel : nat) :
  forall (n : Z) (acc : string),
    0 <= n < 10 ^ Z.of_nat (S fuel) ->
    JsText.parse_digits 0 (JsText.decimal_go fuel n acc)
    = JsText.parse_digits n acc.
Proof.
  assert (Hlast : forall n acc, 0 <= n < 10 ->
            JsText.parse_digits 0 (String (JsText.digit_char (n mod 10)) acc)
            = JsText.parse_digits n acc).
  { intros n acc Hn. simpl. rewrite Z.mod_small by lia.
    now rewrite (proj2 (digit_char_spec n Hn)). }
  induction fuel as [|fuel IH]; intros n acc Hn.
  - apply Hlast. simpl in Hn. lia.
  - cbn [JsText.decimal_go].
    destruct (Z.eqb_spec (n / 10) 0) as [Hz|Hnz].
    + apply Hlast.
      pose proof (Z.div_mod n 10 ltac:(lia)).
      pose proof (Z.mod_pos_bound n 10 ltac:(lia)). lia.
    + rewrite IH.
      * cbn [JsText.parse_digits].
        rewrite (proj2 (digit_char_spec _ (Z.mod_pos_bound n 10 ltac:(lia)))).
        f_equal. pose proof (Z.div_mod n 10 ltac:(lia)). lia.
      * split; [apply Z.div_pos; lia|].
        apply Z.div_lt_upper_bound; [lia|].
        replace (Z.of_nat (S (S fuel))) with (Z.succ (Z.of_nat (S fuel)))
          in Hn by lia.
        rewrite Z.pow_succ_r in Hn by lia. lia.
Qed.

Lemma decimal_fuel_suffices (n : Z) :
  0 <= n -> n < 10 ^ Z.of_nat (S (Z.to_nat (Z.log2 n))).
Proof.
  intros Hn.
  replace (Z.of_nat (S (Z.to_nat (Z.log2 n)))) with (Z.succ (Z.log2 n))
    by (pose proof (Z.log2_nonneg n); lia).
  destruct (Z.eq_dec n 0) as [->|Hnz]; [reflexivity|].
  pose proof (Z.log2_spec n ltac:(lia)) as [_ Hlt].
  eapply Z.lt_le_trans; [exact Hlt|].
  apply Z.pow_le_mono_l. lia.
Qed.

(** [parseInt] reads back what [String] writes. *)
Lemma parseInt_decimal (n : Z) :
  0 <= n -> JsText.parseInt (JsText.decimal n) = n.
Proof.
  intros Hn. unfold JsText.parseInt, JsText.decimal.
  rewrite parse_decimal_go; [reflexivity|].
  split; [exact Hn | now apply decimal_fuel_suffices].
Qed.

Lemma toString_nonneg (n : Z) : 0 <= n -> JsText.toString n = JsText.decimal n.
Proof.
  intros Hn. unfold JsText.toString.
  destruct (Z.ltb_spec n 0); [lia | reflexivity].
Qed.

Lemma toString_inj (a b : Z) :
  0 <= a -> 0 <= b -> JsText.toString a = JsText.toString b -> a = b.
Proof.
  intros Ha Hb. rewrite !toString_nonneg by assumption. intros H.
  rewrite <- (parseInt_decimal a Ha), <- (parseInt_decimal b Hb).
  now rewrite H.
Qed.

Lemma decimal_go_app (fuel : nat) :
  forall (n : Z) (acc : string),
    JsText.decimal_go fuel n acc = JsText.decimal_go fuel n "" ++ acc.
Proof.
  induction fuel as [|fuel IH]; intros n acc; [reflexivity|].
  cbn [JsText.decimal_go].
  destruct (n / 10 =? 0); [reflexivity|].
  rewrite IH. rewrite (IH _ (String _ "")).
  now rewrite string_app_assoc.
Qed.

Lemma span_decimal_go (fuel : nat) :
  forall (n : Z) (acc : string),
    JsText.span_digits (JsText.decimal_go fuel n acc)
    = (JsText.decimal_go fuel n (fst (JsText.span_digits acc)),
       snd (JsText.span_digits acc)).
Proof.
  assert (Hlast : forall n acc,
            JsText.span_digits (String (JsText.digit_char (n mod 10)) acc)
            = (String (JsText.digit_char (n mod 10))
                 (fst (JsText.span_digits acc)),
               snd (JsText.span_digits acc))).
  { intros n acc. cbn [JsText.span_digits].
    rewrite (proj1 (digit_char_spec _ (Z.mod_pos_bound n 10 ltac:(lia)))).
    now destruct (JsText.span_digits acc). }
  induction fuel as [|fuel IH]; intros n acc.
  - apply Hlast.
  - cbn [JsText.decimal_go].
    destruct (n / 10 =? 0); [apply Hlast|].
    rewrite IH, Hlast. reflexivity.
Qed.

Lemma decimal_go_truthy (fuel : nat) :
  forall (n : Z) (acc : string),
    Js.truthy (JsText.decimal_go fuel n acc) = true.
Proof.
  induction fuel as [|fuel IH]; intros n acc; [reflexivity|].
  cbn [JsText.decimal_go]. destruct (n / 10 =? 0); [reflexivity | apply IH].
Qed.

(** ** The id in a URL *)

Lemma url_match_unfold (url : string) :
  url_match url
  = match match_here url with
    | Some digits => Some digits
    | None =>
        match url with
        | EmptyString => None
        | String _ rest => url_match rest
        end
    end.
Proof. destruct url; reflexivity. Qed.

Lemma url_match_skip (c : ascii) (rest : string) :
  match_here (String c rest) = None ->
  url_match (String c rest) = url_match rest.
Proof. intros H. rewrite url_match_unfold, H. reflexivity. Qed.

Lemma prefix_app (s t : string) : String.prefix s (s ++ t) = true.
Proof. apply prefix_iff. now exists t. Qed.

Lemma match_here_id (n : Z) (suffix : string) :
  match_here ("/pokemon/" ++ JsText.decimal n ++ String "/" suffix)
  = Some (JsText.decimal n).
Proof.
  unfold match_here. rewrite prefix_app.
  change (JsText.skip 9 ("/pokemon/" ++ JsText.decimal n ++ String "/" suffix))
    with (JsText.decimal n ++ String "/" suffix).
  unfold JsText.decimal.
  rewrite <- decimal_go_app, span_decimal_go.
  change (JsText.span_digits (String "/" suffix))
    with (EmptyString, String "/" suffix).
  cbn [fst snd]. rewrite decimal_go_truthy.
  change (String "/" suffix) with ("/" ++ suffix).
  rewrite prefix_app. reflexivity.
Qed.

Lemma span_all_digits (s : string) :
  JsText.all_digits (fst (JsText.span_digits s)) = true.
Proof.
  induction s as [|c s IH]; [reflexivity|].
  cbn [JsText.span_digits].
  destruct (JsText.is_digit c) eqn:Hc; [|reflexivity].
  destruct (JsText.span_digits s). simpl in *. now rewrite Hc.
Qed.

Lemma parse_digits_nonneg (digits : string) :
  forall acc, 0 <= acc -> JsText.all_digits digits = true ->
              0 <= JsText.parse_digits acc digits.
Proof.
  induction digits as [|c ds IH]; intros acc Hacc Hall; [exact Hacc|].
  simpl in Hall. apply andb_prop in Hall as [Hc Hds].
  cbn [JsText.parse_digits]. apply IH; [|exact Hds].
  pose proof (is_digit_value c Hc). lia.
Qed.

Lemma match_here_all_digits (s digits : string) :
  match_here s = Some digits -> JsText.all_digits digits = true.
Proof.
  unfold match_here. destruct (String.prefix "/pokemon/" s); [|discriminate].
  pose proof (span_all_digits (JsText.skip 9 s)) as Hall.
  destruct (JsText.span_digits (JsText.skip 9 s)) as [ds tail].
  destruct (Js.truthy ds && String.prefix "/" tail)%bool; [|discriminate].
  intros [= <-]. exact Hall.
Qed.

Lemma url_match_all_digits (url digits : string) :
  url_match url = Some digits -> JsText.all_digits digits = true.
Proof.
  induction url as [|c url IH]; rewrite url_match_unfold;
    destruct (match_here _) eqn:Hm.
  - intros [= <-]. eapply match_here_all_digits; eassumption.
  - discriminate.
  - intros [= <-]. eapply match_here_all_digits; eassumption.
  - exact IH.
Qed.

Lemma url_match_none (url : string) :
  Js.includes url "/pokemon/" = false -> url_match url = None.
Proof.
  induction url as [|c url IH]; rewrite includes_unfold, url_match_unfold;
    unfold match_here; destruct (String.prefix "/pokemon/" _);
    try discriminate; [reflexivity | exact IH].
Qed.

Lemma extractPokemonId_none (url : string) :
  Js.includes url "/pokemon/" = false -> extractPokemonId url = 0.
Proof.
  intros H. unfold extractPokemonId. now rewrite url_match_none.
Qed.

Lemma extractPokemonId_nonneg (url : string) : 0 <= extractPokemonId url.
Proof.
  unfold extractPokemonId. destruct (url_match url) as [digits|] eqn:Hm.
  - apply parse_digits_nonneg; [lia|].
    eapply url_match_all_digits; eassumption.
  - lia.
Qed.

(** X13. The id written into an API URL is the id read back from it.  For
    every id [n] from 0 to the largest safe integer and whatever follows the
    closing slash, [extractPokemonId] of
    [https://pokeapi.co/api/v2/pokemon/<n>/...] is [n], and the entry built
    from such an item carries that id and the artwork URL ending in
    [<n>.png]. *)
Theorem extractPokemonId_roundtrip (n : Z) (nm suffix : string) :
  0 <= n <= 9007199254740991 ->
  let url := "https://pokeapi.co/api/v2/pokemon/" ++ JsText.toString n
             ++ "/" ++ suffix in
  let entry := transformPokemonListItem
                 {| item_name := nm; item_url := url |} in
  extractPokemonId url = n
  /\ id entry = n
  /\ name entry = nm
  /\ imageUrl entry = artwork_base ++ JsText.toString n ++ ".png".
Proof.
  intros [Hn _] url entry.
  assert (Hid : extractPokemonId url = n).
  { unfold url, extractPokemonId. rewrite toString_nonneg by exact Hn.
    cbn [String.append].
    repeat (rewrite url_match_skip by reflexivity).
    assert (Hm : url_match
                   ("/pokemon/" ++ JsText.decimal n ++ String "/" suffix)
                 = Some (JsText.decimal n))
      by (rewrite url_match_unfold, match_here_id; reflexivity).
    cbn [String.append] in Hm. rewrite Hm.
    now apply parseInt_decimal. }
  split; [exact Hid|]. split; [exact Hid|]. split; [reflexivity|].
  unfold entry, transformPokemonListItem. cbn [imageUrl item_url].
  fold url. rewrite Hid. reflexivity.
Qed.

Lemma extractPokemonId_roundtrip_witness :
  extractPokemonId "https://pokeapi.co/api/v2/pokemon/25/" = 25
  /\ transformPokemonListItem pikachu_item
     = {| id := 25;
          name := "pikachu";
          url := "https://pokeapi.co/api/v2/pokemon/25/";
          imageUrl := artwork_base ++ "25.png";
          types := [] |}.
Proof.
  destruct (extractPokemonId_roundtrip 25 "pikachu" "" ltac:(lia))
    as (Hid & _).
  split; [exact Hid | reflexivity].
Defined.

(** X14. [extractPokemonId] never yields a negative id, and a URL in which
    [/pokemon/] does not occur yields the fallback id 0. *)
Theorem extractPokemonId_fallback (url : string) :
  0 <= extractPokemonId url
  /\ (Js.includes url "/pokemon/" = false -> extractPokemonId url = 0).
Proof.
  split; [apply extractPokemonId_nonneg | apply extractPokemonId_none].
Qed.

Lemma extractPokemonId_fallback_witness :
  Js.includes "https://example.org/unknown" "/pokemon/" = false
  /\ extractPokemonId "https://example.org/unknown" = 0.
Proof.
  split; [reflexivity|].
  exact (proj2 (extractPokemonId_fallback "https://example.org/unknown")
           eq_refl).
Defined.

(** X15. [fetchPokemonList] keeps the page as the API sent it: one entry per
    result, in the same order, with the result's name and URL, a
    non-negative id, the artwork URL of that id and no types; and [hasMore]
    says whether [next] is non-null, whatever the number of results. *)
Theorem fetchPokemonList_page_faithful
    (d : PokemonListResponse) (rs : list PokemonListItem) :
  results d = Some rs ->
  let page := fetchPokemonList_page (Some d) in
  length (page_pokemon page) = length rs
  /\ List.map name (page_pokemon page) = List.map item_name rs
  /\ List.map url (page_pokemon page) = List.map item_url rs
  /\ (forall e, In e (page_pokemon page) ->
        0 <= id e /\ imageUrl e = getPokemonImageUrl (id e) /\ types e = [])
  /\ (page_hasMore page = true <-> next d <> None).
Proof.
  intros Hrs page. unfold page, fetchPokemonList_page. rewrite Hrs.
  cbn [page_pokemon page_hasMore].
  split; [apply List.length_map|].
  split; [rewrite List.map_map; reflexivity|].
  split; [rewrite List.map_map; reflexivity|].
  split.
  - intros e He. apply List.in_map_iff in He as (item & <- & _).
    split; [apply extractPokemonId_nonneg | split; reflexivity].
  - destruct (next d); split; congruence.
Qed.

Lemma fetchPokemonList_page_faithful_witness :
  results sample_response = Some [pikachu_item; nameless_item]
  /\ let page := fetchPokemonList_page (Some sample_response) in
     List.map name (page_pokemon page) = ["pikachu"; "missingno"]
     /\ List.map id (page_pokemon page) = [25; 0]
     /\ page_hasMore page = true.
Proof.
  split; [reflexivity|].
  destruct (fetchPokemonList_page_faithful sample_response
              [pikachu_item; nameless_item] eq_refl)
    as (_ & Hnames & _ & _ & Hmore).
  split; [exact Hnames|]. split; [reflexivity|].
  apply Hmore. discriminate.
Defined.

Lemma unusable_body_page (data : option PokemonListResponse) :
  match data with
  | None => True
  | Some d => results d = None
  end ->
  fetchPokemonList (Resolved data)
  = Resolved {| page_pokemon := []; page_hasMore := false |}.
Proof.
  destruct data as [d|]; simpl; [|reflexivity].
  intros ->. reflexivity.
Qed.

(** X16. A response without a usable body (no body, or [results] not an
    array) is taken for an empty last page, not for an error.  After an
    initial load that got one, the list is empty, no error is recorded, the
    screen is the empty state, and no later incremental load fetches
    anything; an incremental load that got one keeps the accumulated list and
    likewise ends pagination. *)
Theorem unusable_body_ends_pagination
    (w : World) (data : option PokemonListResponse)
    (pages : list ListPage) :
  match data with
  | None => True
  | Some d => results d = None
  end ->
  (isFetchingRef w = false ->
   let w' := complete (loadInitialData w) (fetchPokemonList (Resolved data)) in
   pokemonList (store w') = []
   /\ error (store w') = None
   /\ listScreen (store w')
      = EmptyScreen "No Pokémon found" (emptySubMessage (searchQuery (store w)))
   /\ loadMorePages pages w' = w')
  /\ (isLoadingMoreRef w = false -> hasMore (store w) = true ->
      isLoading (store w) = false -> isRefreshing (store w) = false ->
      let w' := complete (loadMoreData (render (store w)) w)
                  (fetchPokemonList (Resolved data)) in
      pokemonList (store w') = pokemonList (store w)
      /\ error (store w') = error (store w)
      /\ loadMorePages pages w' = w').
Proof.
  intros Hdata. rewrite (unusable_body_page data Hdata). split.
  - intros Hf w'.
    assert (Hw' : pokemonList (store w') = []
                  /\ filteredList (store w') = []
                  /\ error (store w') = None
                  /\ isLoading (store w') = false
                  /\ hasMore (store w') = false
                  /\ searchQuery (store w') = searchQuery (store w)).
    { unfold w', loadInitialData. rewrite Hf. simpl.
      destruct (Js.truthy (Js.toLowerCase (searchQuery (store w))));
        now repeat split. }
    destruct Hw' as (Hl & Hfl & He & Hld & Hh & Hq).
    split; [exact Hl|]. split; [exact He|]. split.
    + unfold listScreen, StateHandler. rewrite Hfl, He, Hld, Hq. reflexivity.
    + now apply loadMorePages_exhausted.
  - intros Hm Hh Hl Hr w'.
    assert (Hw' : w' = _)
      by (apply (loadMoreData_success (render (store w)) w Hm Hh Hl Hr)).
    rewrite Hw'. cbn [store page_pokemon page_hasMore].
    split; [simpl; apply List.app_nil_r|]. split; [reflexivity|].
    now apply loadMorePages_exhausted.
Qed.

Lemma unusable_body_ends_pagination_witness :
  let w' := complete (loadInitialData initialWorld)
              (fetchPokemonList (Resolved None)) in
  pokemonList (store w') = []
  /\ error (store w') = None
  /\ listScreen (store w')
     = EmptyScreen "No Pokémon found" "Pull down to refresh and load Pokémon."
  /\ loadMorePages [sample_page_1] w' = w'.
Proof.
  exact (proj1 (unusable_body_ends_pagination initialWorld None
                  [sample_page_1] I) eq_refl).
Defined.

(** ** What the detail screen shows *)


(** X18. An entry whose URL holds no id cannot be opened.  Its id is 0 and its
    artwork URL ends in [0.png]; pressing its card mounts the detail view
    with id 0, for which the effect issues no request and changes nothing, so
    the view stays without record, spinner or error. *)
Theorem entry_without_id_opens_nothing (item : PokemonListItem) (w : World) :
  Js.includes (item_url item) "/pokemon/" = false ->
  let entry := transformPokemonListItem item in
  id entry = 0
  /\ imageUrl entry = artwork_base ++ "0.png"
  /\ openDetail entry w = Returned w
  /\ (detail_slice (store w) = (None, false, None) ->
      detailScreen (store w) = Children).
Proof.
  intros Hurl entry.
  assert (Hid : id entry = 0) by (apply extractPokemonId_none; exact Hurl).
  split; [exact Hid|]. split; [|split].
  - unfold entry, transformPokemonListItem in *. cbn [id imageUrl] in *.
    rewrite Hid. reflexivity.
  - unfold openDetail. rewrite Hid. reflexivity.
  - unfold detail_slice. intros [= Hs Hl He].
    unfold detailScreen, StateHandler. now rewrite Hl, He.
Qed.

Lemma entry_without_id_opens_nothing_witness :
  Js.includes (item_url nameless_item) "/pokemon/" = false
  /\ id (transformPokemonListItem nameless_item) = 0
  /\ openDetail (transformPokemonListItem nameless_item) loaded_world
     = Returned loaded_world.
Proof.
  split; [reflexivity|].
  destruct (entry_without_id_opens_nothing nameless_item loaded_world eq_refl)
    as (Hid & _ & Hopen & _).
  split; [exact Hid | exact Hopen].
Defined.

(** ** Keys and badges *)

Lemma decimal_go_head (fuel : nat) :
  forall (n : Z) (acc : string),
    exists c rest, JsText.decimal_go fuel n acc = String c rest
                   /\ JsText.is_digit c = true.
Proof.
  induction fuel as [|fuel IH]; intros n acc; cbn [JsText.decimal_go].
  - eexists _, _. split; [reflexivity|].
    apply digit_char_spec, Z.mod_pos_bound. lia.
  - destruct (n / 10 =? 0); [|apply IH].
    eexists _, _. split; [reflexivity|].
    apply digit_char_spec, Z.mod_pos_bound. lia.
Qed.

Lemma toString_injective (a b : Z) :
  JsText.toString a = JsText.toString b -> a = b.
Proof.
  unfold JsText.toString.
  destruct (Z.ltb_spec a 0) as [Ha|Ha], (Z.ltb_spec b 0) as [Hb|Hb].
  - intros [= H].
    assert (- a = - b); [|lia].
    rewrite <- (parseInt_decimal (- a)), <- (parseInt_decimal (- b)) by lia.
    now rewrite H.
  - intros H. unfold JsText.decimal in H.
    destruct (decimal_go_head (Z.to_nat (Z.log2 b)) b "") as (c & r & Hc & Hd).
    rewrite Hc in H. injection H as <- _. discriminate.
  - intros H. unfold JsText.decimal in H.
    destruct (decimal_go_head (Z.to_nat (Z.log2 a)) a "") as (c & r & Hc & Hd).
    rewrite Hc in H. injection H as -> _. discriminate.
  - intros H.
    rewrite <- (parseInt_decimal a Ha), <- (parseInt_decimal b Hb).
    now rewrite H.
Qed.

Lemma keyExtractor_eq (a b : Pokemon) :
  keyExtractor a = keyExtractor b <-> id a = id b.
Proof.
  unfold keyExtractor. split.
  - cbn [String.append]. intros [= H]. now apply toString_injective.
  - now intros ->.
Qed.

(** X19. The list keys are as distinct as the ids.  Two entries get the same
    key exactly when they have the same id, so the keys of a list are free of
    duplicates exactly when its ids are. *)
Theorem keys_distinct_iff_ids_distinct (l : list Pokemon) :
  (forall a b, keyExtractor a = keyExtractor b <-> id a = id b)
  /\ (List.NoDup (List.map keyExtractor l) <-> List.NoDup (List.map id l)).
Proof.
  split; [exact keyExtractor_eq|].
  induction l as [|e l IH]; cbn [List.map].
  - split; constructor.
  - assert (Hin : In (keyExtractor e) (List.map keyExtractor l)
                  <-> In (id e) (List.map id l)).
    { rewrite !List.in_map_iff. split; intros (x & Hx & Hl); exists x;
        (split; [|exact Hl]); [apply keyExtractor_eq | apply keyExtractor_eq in Hx];
        [exact Hx | exact Hx]. }
    split; intros Hnd; inversion Hnd as [|? ? Hni Hnd']; subst;
      constructor; try (now apply IH); rewrite ?Hin in *; tauto.
Qed.

Lemma keys_distinct_iff_ids_distinct_witness :
  List.NoDup (List.map id (page_pokemon sample_page_1))
  /\ List.NoDup (List.map keyExtractor (page_pokemon sample_page_1))
  /\ ~ List.NoDup
        (List.map keyExtractor
           (page_pokemon sample_page_1 ++ page_pokemon sample_page_1)).
Proof.
  assert (Hids : List.NoDup (List.map id (page_pokemon sample_page_1))).
  { repeat constructor; simpl; intuition discriminate. }
  split; [exact Hids|]. split.
  - exact (proj2 (proj2 (keys_distinct_iff_ids_distinct
                           (page_pokemon sample_page_1))) Hids).
  - intros Hkeys.
    apply (proj1 (proj2 (keys_distinct_iff_ids_distinct
             (page_pokemon sample_page_1 ++ page_pokemon sample_page_1))))
      in Hkeys.
    inversion Hkeys as [|? ? Hni _]. apply Hni. simpl. tauto.
Defined.

Lemma string_length_app (a b : string) :
  String.length (a ++ b) = (String.length a + String.length b)%nat.
Proof. induction a as [|x a IH]; simpl; [reflexivity | now rewrite IH]. Qed.

Lemma repeat_char_length (c : ascii) (n : nat) :
  String.length (JsText.repeat_char c n) = n.
Proof. induction n as [|n IH]; simpl; [reflexivity | now rewrite IH]. Qed.

Lemma parse_leading_zeros (n : nat) (digits : string) :
  JsText.parse_digits 0 (JsText.repeat_char "0" n ++ digits)
  = JsText.parse_digits 0 digits.
Proof. induction n as [|n IH]; [reflexivity | exact IH]. Qed.

(** X20. For an id from 0 to the largest safe integer, the id badge [#NNN]
    has at least three characters after the hash sign, and what follows the
    hash sign reads back as the id: padding adds leading zeros only and
    never cuts. *)
Theorem formattedId_roundtrip (pokemon : Pokemon) :
  0 <= id pokemon <= 9007199254740991 ->
  (4 <= String.length (formattedId pokemon))%nat
  /\ JsText.parseInt (JsText.skip 1 (formattedId pokemon)) = id pokemon.
Proof.
  intros [Hid _]. unfold formattedId, JsText.padStart. split.
  - cbn [String.append String.length].
    rewrite string_length_app, repeat_char_length. lia.
  - cbn [String.append JsText.skip]. unfold JsText.parseInt.
    rewrite parse_leading_zeros, toString_nonneg by exact Hid.
    now apply parseInt_decimal.
Qed.

Lemma formattedId_roundtrip_witness :
  formattedId (sample_entry 25 "Pikachu") = "#025"
  /\ formattedId (sample_entry 1025 "pecharunt") = "#1025"
  /\ JsText.parseInt (JsText.skip 1 (formattedId (sample_entry 25 "Pikachu")))
     = 25.
Proof.
  split; [reflexivity|]. split; [reflexivity|].
  exact (proj2 (formattedId_roundtrip (sample_entry 25 "Pikachu")
                  ltac:(cbn [id sample_entry]; lia))).
Defined.
(** ** The search box *)

Lemma clearTimeout_single (id : nat) (text : string) :
  clearTimeout id [(id, text)] = [].
Proof. unfold clearTimeout. simpl. now rewrite Nat.eqb_refl. Qed.

Lemma unmountCleanup_ok (u : Ui) :
  timers_ok u -> unmountCleanup (box u) (timeouts u) = [].
Proof.
  unfold timers_ok, unmountCleanup.
  destruct (box u) as [b|]; [|auto].
  intros [Hnone | (id & text & Hts & Href)].
  - rewrite Hnone. now destruct (debounceTimerRef b).
  - rewrite Href, Hts. apply clearTimeout_single.
Qed.

(** A render re-establishes what holds of a mounted box. *)
Lemma rerender_ok (before : PokemonStore) (u : Ui) :
  timers_ok u ->
  timers_ok (rerender before u)
  /\ (box (rerender before u) <> None ->
      shows_list (store (world (rerender before u))) = true)
  /\ world (rerender before u) = world u
  /\ emitted (rerender before u) = emitted u
  /\ nextTimeoutId (rerender before u) = nextTimeoutId u.
Proof.
  intros Hok. pose proof (unmountCleanup_ok u Hok) as Hclean.
  unfold rerender.
  destruct (shows_list (store (world u))) eqn:Hshow.
  - destruct (box u) as [b|] eqn:Hbox.
    + destruct (String.eqb _ _).
      * split; [exact Hok|]. split; [intros _; exact Hshow|].
        now repeat split.
      * rewrite Hclean. split; [now left|].
        split; [intros _; exact Hshow|]. now repeat split.
    + unfold timers_ok in Hok. rewrite Hbox in Hok. rewrite Hok.
      split; [now left|]. split; [intros _; exact Hshow|].
      now repeat split.
  - rewrite Hclean. split; [reflexivity|].
    split; [intros H; now contradiction H|]. now repeat split.
Qed.

Lemma fold_dispatch_reachable (actions : list Store.Action) :
  forall s, Store.reachable s ->
            Store.reachable
              (fold_left (fun s a => Store.dispatch a s) actions s).
Proof.
  induction actions as [|a actions IH]; intros s Hs; [exact Hs|].
  cbn [fold_left]. apply IH. now constructor.
Qed.

Lemma handleChangeText_typed (text : string) (u : Ui) :
  timers_ok u -> box u <> None ->
  handleChangeText text u
  = {| box := Some {| localValue := text;
                      debounceTimerRef := Some (nextTimeoutId u) |};
       timeouts := [(nextTimeoutId u, text)];
       nextTimeoutId := S (nextTimeoutId u);
       emitted := emitted u;
       world := world u |}.
Proof.
  unfold timers_ok, handleChangeText.
  destruct (box u) as [b|]; [|congruence].
  intros [Hnone | (id & t & Hts & Href)] _.
  - rewrite Hnone. now destruct (debounceTimerRef b).
  - rewrite Href, Hts. cbv beta iota zeta.
    now rewrite clearTimeout_single.
Qed.

Lemma onChangeText_ok (text : string) (u : Ui) :
  Store.reachable (store (world u)) -> timers_ok u ->
  ui_ok (onChangeText text u).
Proof.
  intros Hr Hok. unfold onChangeText.
  match goal with
  | |- ui_ok (rerender ?b ?v) =>
      destruct (rerender_ok b v Hok) as (H1 & H2 & H3 & _)
  end.
  split; [|split; assumption].
  rewrite H3. cbn.
  now apply (Store.reachable_dispatch (Store.SetSearchQuery text)).
Qed.

Lemma ui_step_ok (e : UiEvent) (u : Ui) : ui_ok u -> ui_ok (ui_step e u).
Proof.
  intros (Hr & Hok & Hshow). destruct e as [text|id| |actions]; cbn [ui_step].
  - destruct (box u) as [b|] eqn:Hbox.
    + rewrite handleChangeText_typed by (rewrite ?Hbox; congruence).
      split; [exact Hr|]. split.
      * unfold timers_ok. cbn. right. now eexists _, _.
      * intros _. cbn. apply Hshow. congruence.
    + unfold handleChangeText. rewrite Hbox.
      split; [exact Hr|]. split; [exact Hok|]. intros H. congruence.
  - unfold fireTimeout.
    destruct (scheduled id (timeouts u)) as [text|] eqn:Hs;
      [|now repeat split].
    apply onChangeText_ok; [exact Hr|].
    unfold timers_ok in *. cbn.
    destruct (box u) as [b|].
    + destruct Hok as [Hnone | (id0 & t & Hts & Href)].
      * rewrite Hnone. now left.
      * rewrite Hts in *. cbn in Hs.
        destruct (Nat.eqb_spec id0 id) as [->|Hne]; [|discriminate].
        left. apply clearTimeout_single.
    + now rewrite Hok.
  - unfold handleClear. destruct (box u) as [b|] eqn:Hbox;
      [|now repeat split].
    apply onChangeText_ok; [exact Hr|].
    unfold timers_ok in *. cbn. rewrite Hbox in Hok. exact Hok.
  - unfold storeChanged.
    match goal with
    | |- ui_ok (rerender ?b ?v) =>
        destruct (rerender_ok b v Hok) as (H1 & H2 & H3 & _)
    end.
    split; [|split; assumption].
    rewrite H3. cbn. now apply fold_dispatch_reachable.
Qed.

Lemma ui_reachable_ok (u : Ui) : ui_reachable u -> ui_ok u.
Proof.
  induction 1 as [|e u _ IH]; [|now apply ui_step_ok].
  split; [constructor|]. split; [reflexivity|]. intros H. now contradiction H.
Qed.

Lemma typeAll_quiet (texts : list string) :
  forall u, timers_ok u -> box u <> None ->
    timers_ok (typeAll texts u)
    /\ box (typeAll texts u) <> None
    /\ world (typeAll texts u) = world u
    /\ emitted (typeAll texts u) = emitted u
    /\ nextTimeoutId (typeAll texts u)
       = (nextTimeoutId u + length texts)%nat.
Proof.
  induction texts as [|t texts IH]; intros u Hok Hbox.
  - simpl. repeat split; try assumption. lia.
  - unfold typeAll in *. cbn [fold_left].
    rewrite (handleChangeText_typed t u Hok Hbox).
    match goal with
    | |- context [fold_left _ texts ?v] =>
        destruct (IH v) as (H1 & H2 & H3 & H4 & H5);
          [unfold timers_ok; cbn; right; now eexists _, _
          | cbn; congruence |]
    end.
    repeat split; try assumption. rewrite H5. cbn. lia.
Qed.

Lemma typeAll_last (texts : list string) (last : string) (u : Ui) :
  timers_ok u -> box u <> None ->
  typeAll (texts ++ [last]) u
  = {| box := Some {| localValue := last;
                      debounceTimerRef :=
                        Some (nextTimeoutId u + length texts)%nat |};
       timeouts := [((nextTimeoutId u + length texts)%nat, last)];
       nextTimeoutId := S (nextTimeoutId u + length texts);
       emitted := emitted u;
       world := world u |}.
Proof.
  intros Hok Hbox.
  destruct (typeAll_quiet texts u Hok Hbox) as (H1 & H2 & H3 & H4 & H5).
  unfold typeAll in *. rewrite fold_left_app. cbn [fold_left].
  rewrite (handleChangeText_typed last _ H1 H2).
  now rewrite H3, H4, H5.
Qed.

(** Whether the list is on screen does not depend on the search term as
    such, only on what the term leaves in view. *)
Lemma shows_list_ext (s1 s2 : PokemonStore) :
  isLoading s1 = isLoading s2 -> error s1 = error s2 ->
  filteredList s1 = filteredList s2 ->
  shows_list s1 = shows_list s2.
Proof.
  intros Hl He Hf. unfold shows_list, listScreen, StateHandler.
  rewrite Hl, He, Hf.
  destruct (isLoading s2 && _); [reflexivity|].
  destruct (error_shown (error s2)); [reflexivity|].
  destruct (negb (isLoading s2) && _); reflexivity.
Qed.

Lemma fire_after_typing (u : Ui) (b : SearchBar) (id : nat) (text : string) :
  box u = Some b -> debounceTimerRef b = Some id ->
  timeouts u = [(id, text)] ->
  let due := fireTimeout id u in
  timeouts due = []
  /\ emitted due = (emitted u ++ [text])%list
  /\ world due = act (Store.setSearchQuery text) (world u)
  /\ nextTimeoutId due = nextTimeoutId u
  /\ box due
     = (if shows_list (store (world due))
        then Some (if String.eqb (searchQuery (store (world u))) text
                   then b
                   else mountSearchBar text)
        else None).
Proof.
  intros Hbox Href Hts. unfold fireTimeout. rewrite Hts. cbn [scheduled].
  rewrite Nat.eqb_refl, clearTimeout_single.
  unfold onChangeText, rerender.
  cbn [box timeouts nextTimeoutId emitted world act store].
  destruct (shows_list (Store.setSearchQuery text (store (world u)))) eqn:Hs.
  - rewrite Hbox. cbn [searchQuery Store.setSearchQuery].
    destruct (String.eqb (searchQuery (store (world u))) text) eqn:He.
    + cbn. rewrite Hs. now repeat split.
    + unfold unmountCleanup. rewrite Href.
      cbn. rewrite Hs. now repeat split.
  - rewrite Hbox. unfold unmountCleanup. rewrite Href.
    cbn. rewrite Hs. now repeat split.
Qed.

(** X21. A burst of keystrokes costs one update of the search term.  In every
    state the list screen can reach with the search box mounted, at most one
    timeout is scheduled; after any number of keystrokes with nothing else
    happening in between, the store and the calls made so far are untouched,
    the box shows the last text, and exactly one timeout is scheduled,
    carrying that text.  When it comes due, exactly one call is made, the
    search term is that text, the view is the accumulated list filtered by
    it, no timeout is left, and the box on screen, if the list still is,
    shows that text. *)
Theorem keystrokes_are_debounced
    (u : Ui) (texts : list string) (last : string) :
  ui_reachable u -> box u <> None ->
  let typed := typeAll (texts ++ [last]) u in
  let id := (nextTimeoutId u + length texts)%nat in
  let due := fireTimeout id typed in
  (length (timeouts u) <= 1)%nat
  /\ shows_list (store (world u)) = true
  /\ timeouts typed = [(id, last)]
  /\ shownText typed = Some last
  /\ world typed = world u
  /\ emitted typed = emitted u
  /\ timeouts due = []
  /\ emitted due = (emitted u ++ [last])%list
  /\ searchQuery (store (world due)) = last
  /\ filteredList (store (world due))
     = Store.spec_filtered last (pokemonList (store (world u)))
  /\ shownText due
     = (if shows_list (store (world due)) then Some last else None).
Proof.
  intros Hu Hbox typed id due.
  destruct (ui_reachable_ok u Hu) as (Hr & Hok & Hshow).
  pose proof (typeAll_last texts last u Hok Hbox) as Htyped.
  fold typed id in Htyped.
  split.
  { unfold timers_ok in Hok. destruct (box u); [|congruence].
    destruct Hok as [-> | (i & t & -> & _)]; simpl; lia. }
  split; [exact (Hshow Hbox)|].
  split; [now rewrite Htyped|]. split; [now rewrite Htyped|].
  split; [now rewrite Htyped|]. split; [now rewrite Htyped|].
  destruct (fire_after_typing typed
              {| localValue := last; debounceTimerRef := Some id |} id last)
    as (H1 & H2 & H3 & _ & H5);
    [now rewrite Htyped | reflexivity | now rewrite Htyped |].
  fold due in H1, H2, H3, H5.
  split; [exact H1|]. split; [rewrite H2; now rewrite Htyped|].
  assert (Hw : store (world due)
               = Store.setSearchQuery last (store (world u)))
    by (rewrite H3, Htyped; reflexivity).
  split; [now rewrite Hw|].
  split; [rewrite Hw; apply setSearchQuery_view|].
  unfold shownText. rewrite H5.
  destruct (shows_list (store (world due))); [|reflexivity].
  now destruct (String.eqb _ last).
Qed.

Lemma keystrokes_are_debounced_witness :
  ui_reachable listed_ui
  /\ box listed_ui <> None
  /\ List.map name (pokemonList (store (world listed_ui)))
     = ["bulbasaur"; "Pikachu"; "raichu"; "pichu"]
  /\ let typed := typeAll ["p"; "pi"; "pik"] listed_ui in
     timeouts typed = [(3%nat, "pik")]
     /\ emitted typed = []
     /\ emitted (fireTimeout 3 typed) = ["pik"]
     /\ searchQuery (store (world (fireTimeout 3 typed))) = "pik"
     /\ filteredList (store (world (fireTimeout 3 typed)))
        = [sample_entry 25 "Pikachu"]
     /\ shownText (fireTimeout 3 typed) = Some "pik".
Proof.
  assert (Hr : ui_reachable listed_ui)
    by (apply (ui_reachable_step (StoreChanged _)); constructor).
  assert (Hb : box listed_ui <> None) by discriminate.
  split; [exact Hr|]. split; [exact Hb|]. split; [reflexivity|].
  destruct (keystrokes_are_debounced listed_ui ["p"; "pi"] "pik" Hr Hb)
    as (_ & _ & Hts & _ & _ & Hem & _ & Hem' & Hq & Hf & Hshown).
  split; [exact Hts|]. split; [exact Hem|]. split; [exact Hem'|].
  split; [exact Hq|]. split; [exact Hf | exact Hshown].
Defined.

(** X22. What the clear button does to a scheduled timeout.  The button
    empties the search term and puts the whole accumulated list in view, but
    the handler does not cancel the timeout of the last keystroke; the
    timeout goes only when the box is unmounted.  So when a term was
    committed before, clearing changes the term, the header is mounted anew
    and the timeout is gone: when it would have come due, nothing happens.
    When no term was committed, clearing changes nothing the list screen
    reads, the box stays mounted and empty with the timeout still scheduled,
    and when it comes due the typed text becomes the search term after
    all. *)
Theorem clear_and_scheduled_timeout (u : Ui) (text : string) :
  ui_reachable u -> box u <> None -> text <> "" ->
  let id := nextTimeoutId u in
  let cleared := handleClear (handleChangeText text u) in
  let due := fireTimeout id cleared in
  searchQuery (store (world cleared)) = ""
  /\ filteredList (store (world cleared)) = pokemonList (store (world u))
  /\ emitted cleared = (emitted u ++ [""])%list
  /\ (searchQuery (store (world u)) <> "" ->
      timeouts cleared = []
      /\ due = cleared
      /\ shownText cleared
         = (if shows_list (store (world cleared)) then Some "" else None))
  /\ (searchQuery (store (world u)) = "" ->
      shownText cleared = Some ""
      /\ timeouts cleared = [(id, text)]
      /\ searchQuery (store (world due)) = text
      /\ filteredList (store (world due))
         = Store.spec_filtered text (pokemonList (store (world u)))
      /\ emitted due = (emitted u ++ [""; text])%list
      /\ shownText due
         = (if shows_list (store (world due)) then Some text else None)).
Proof.
  intros Hu Hbox Htext id cleared due.
  destruct (ui_reachable_ok u Hu) as (Hr & Hok & Hshow).
  pose proof (handleChangeText_typed text u Hok Hbox) as Htyped.
  fold id in Htyped.
  assert (Hcl : cleared
    = rerender (store (world u))
        {| box := Some {| localValue := ""; debounceTimerRef := Some id |};
           timeouts := [(id, text)];
           nextTimeoutId := S id;
           emitted := (emitted u ++ [""])%list;
           world := act (Store.setSearchQuery "") (world u) |}).
  { unfold cleared. rewrite Htyped. reflexivity. }
  assert (Hfacts : world cleared = act (Store.setSearchQuery "") (world u)
                   /\ emitted cleared = (emitted u ++ [""])%list).
  { rewrite Hcl.
    match goal with
    | |- world (rerender ?b ?v) = _ /\ _ =>
        destruct (rerender_ok b v) as (_ & _ & H3 & H4 & _);
          [unfold timers_ok; cbn; right; now eexists _, _|];
          rewrite H3, H4; now split
    end. }
  destruct Hfacts as [Hw Hem].
  split; [now rewrite Hw|]. split; [now rewrite Hw|]. split; [exact Hem|].
  split.
  - intros Hq.
    assert (Hne : String.eqb (searchQuery (store (world u))) "" = false)
      by (now apply String.eqb_neq).
    assert (Hts : timeouts cleared = []
                  /\ shownText cleared
                     = (if shows_list (store (world cleared))
                        then Some "" else None)).
    { rewrite Hw. rewrite Hcl. unfold rerender.
      cbn [box timeouts world act store searchQuery Store.setSearchQuery].
      rewrite Hne. unfold unmountCleanup. cbn [debounceTimerRef].
      rewrite clearTimeout_single.
      destruct (shows_list (Store.setSearchQuery "" (store (world u))));
        now split. }
    destruct Hts as [Hts Hsh].
    split; [exact Hts|]. split; [|exact Hsh].
    unfold due, fireTimeout. now rewrite Hts.
  - intros Hq.
    assert (Hsame : shows_list (Store.setSearchQuery "" (store (world u)))
                    = true).
    { rewrite <- (Hshow Hbox). apply shows_list_ext; try reflexivity.
      pose proof (reachable_view_consistent _ Hr) as Hv.
      unfold Store.view_consistent in Hv. rewrite Hv, Hq.
      cbn. symmetry. apply spec_filtered_empty_term. }
    assert (Hcl' : cleared
      = {| box := Some {| localValue := ""; debounceTimerRef := Some id |};
           timeouts := [(id, text)];
           nextTimeoutId := S id;
           emitted := (emitted u ++ [""])%list;
           world := act (Store.setSearchQuery "") (world u) |}).
    { rewrite Hcl. unfold rerender.
      cbn [box timeouts world act store searchQuery Store.setSearchQuery].
      rewrite Hsame, Hq. reflexivity. }
    split; [now rewrite Hcl'|]. split; [now rewrite Hcl'|].
    destruct (fire_after_typing cleared
                {| localValue := ""; debounceTimerRef := Some id |} id text)
      as (_ & H2 & H3 & _ & H5);
      [now rewrite Hcl' | reflexivity | now rewrite Hcl' |].
    fold due in H2, H3, H5.
    assert (Hsd : store (world due)
                  = Store.setSearchQuery text
                      (Store.setSearchQuery "" (store (world u))))
      by (rewrite H3, Hw; reflexivity).
    split; [now rewrite Hsd|].
    split; [rewrite Hsd, setSearchQuery_view; reflexivity|].
    split; [rewrite H2, Hem; now rewrite <- List.app_assoc|].
    unfold shownText. rewrite H5.
    destruct (shows_list (store (world due))); [|reflexivity].
    rewrite Hw. cbn [store act searchQuery Store.setSearchQuery].
    destruct text as [|c text]; [congruence | reflexivity].
Qed.

Lemma clear_and_scheduled_timeout_witness :
  (ui_reachable committed_ui
   /\ searchQuery (store (world committed_ui)) = "chu"
   /\ let cleared := handleClear (handleChangeText "chux" committed_ui) in
      timeouts cleared = []
      /\ fireTimeout 2 cleared = cleared
      /\ shownText cleared = Some "")
  /\ (ui_reachable listed_ui
      /\ searchQuery (store (world listed_ui)) = ""
      /\ let cleared := handleClear (handleChangeText "pik" listed_ui) in
         shownText cleared = Some ""
         /\ timeouts cleared = [(1%nat, "pik")]
         /\ searchQuery (store (world (fireTimeout 1 cleared))) = "pik"
         /\ shownText (fireTimeout 1 cleared) = Some "pik").
Proof.
  assert (Hl : ui_reachable listed_ui)
    by (apply (ui_reachable_step (StoreChanged _)); constructor).
  assert (Hc : ui_reachable committed_ui)
    by (apply (ui_reachable_step (TimeoutDue 1)),
              (ui_reachable_step (Typed "chu")); exact Hl).
  split.
  - split; [exact Hc|]. split; [reflexivity|].
    destruct (clear_and_scheduled_timeout committed_ui "chux" Hc
                ltac:(discriminate) ltac:(discriminate))
      as (_ & _ & _ & Hcommitted & _).
    destruct (Hcommitted ltac:(discriminate)) as (Hts & Hdue & Hsh).
    split; [exact Hts|]. split; [exact Hdue | exact Hsh].
  - split; [exact Hl|]. split; [reflexivity|].
    destruct (clear_and_scheduled_timeout listed_ui "pik" Hl
                ltac:(discriminate) ltac:(discriminate))
      as (_ & _ & _ & _ & Hfresh).
    destruct (Hfresh eq_refl) as (Hsh & Hts & Hq & _ & _ & Hsh').
    split; [exact Hsh|]. split; [exact Hts|]. split; [exact Hq | exact Hsh'].
Defined.

Lemma empty_view_hides_list (s : PokemonStore) :
  filteredList s = [] ->
  shows_list s = false
  /\ listScreen s <> Children
  /\ (isLoading s = false -> error_shown (error s) = false ->
      listScreen s
      = EmptyScreen "No Pokémon found" (emptySubMessage (searchQuery s))).
Proof.
  intros Hf. unfold shows_list, listScreen, StateHandler. rewrite Hf.
  cbn [length Nat.eqb]. rewrite !andb_true_r.
  destruct (isLoading s); cbn [negb].
  - repeat split; discriminate.
  - destruct (error_shown (error s)); repeat split; discriminate.
Qed.

Lemma shown_list_has_no_error (s : PokemonStore) :
  shows_list s = true -> error_shown (error s) = false.
Proof.
  unfold shows_list, listScreen, StateHandler.
  destruct (isLoading s && _); [discriminate|].
  destruct (error_shown (error s)); [discriminate | reflexivity].
Qed.

(** X23. A search without a match takes the search box off the screen.  When
    the term that comes due matches no accumulated entry, the view is empty,
    [StateHandler] renders the empty state (or the spinner) in place of the
    list, and the box, which lives in the list's header, is unmounted with
    no timeout left: from then on no keystroke, clear or timeout can change
    the term, until the store itself changes. *)
Theorem search_without_match_removes_box (u : Ui) (text : string) :
  ui_reachable u -> box u <> None ->
  Store.spec_filtered text (pokemonList (store (world u))) = [] ->
  let due := fireTimeout (nextTimeoutId u) (handleChangeText text u) in
  searchQuery (store (world due)) = text
  /\ filteredList (store (world due)) = []
  /\ listScreen (store (world due)) <> Children
  /\ (isLoading (store (world u)) = false ->
      listScreen (store (world due))
      = EmptyScreen "No Pokémon found" (emptySubMessage text))
  /\ box due = None
  /\ timeouts due = []
  /\ (forall t, handleChangeText t due = due)
  /\ handleClear due = due
  /\ (forall i, fireTimeout i due = due).
Proof.
  intros Hu Hbox Hnone due.
  destruct (ui_reachable_ok u Hu) as (Hr & Hok & Hshow).
  pose proof (handleChangeText_typed text u Hok Hbox) as Htyped.
  destruct (fire_after_typing (handleChangeText text u)
              {| localValue := text;
                 debounceTimerRef := Some (nextTimeoutId u) |}
              (nextTimeoutId u) text)
    as (H1 & _ & H3 & _ & H5);
    [now rewrite Htyped | reflexivity | now rewrite Htyped |].
  fold due in H1, H3, H5.
  assert (Hs : store (world due)
               = Store.setSearchQuery text (store (world u)))
    by (rewrite H3, Htyped; reflexivity).
  assert (Hf : filteredList (store (world due)) = [])
    by (rewrite Hs, setSearchQuery_view; exact Hnone).
  destruct (empty_view_hides_list _ Hf) as (Hhide & Hnot & Hempty).
  assert (Hb : box due = None) by (now rewrite H5, Hhide).
  split; [now rewrite Hs|]. split; [exact Hf|]. split; [exact Hnot|].
  split.
  - intros Hl.
    assert (Hq : searchQuery (store (world due)) = text) by (now rewrite Hs).
    replace (emptySubMessage text)
      with (emptySubMessage (searchQuery (store (world due))))
      by (now rewrite Hq).
    apply Hempty; rewrite Hs; [exact Hl|].
    apply (shown_list_has_no_error _ (Hshow Hbox)).
  - split; [exact Hb|]. split; [exact H1|].
    split; [|split].
    + intros t. unfold handleChangeText. now rewrite Hb.
    + unfold handleClear. now rewrite Hb.
    + intros i. unfold fireTimeout. now rewrite H1.
Qed.

Lemma search_without_match_removes_box_witness :
  ui_reachable listed_ui
  /\ box listed_ui <> None
  /\ let due := fireTimeout 1 (handleChangeText "zzz" listed_ui) in
     listScreen (store (world due))
     = EmptyScreen "No Pokémon found" (emptySubMessage "zzz")
     /\ box due = None
     /\ handleChangeText "pik" due = due.
Proof.
  assert (Hl : ui_reachable listed_ui)
    by (apply (ui_reachable_step (StoreChanged _)); constructor).
  assert (Hb : box listed_ui <> None) by discriminate.
  split; [exact Hl|]. split; [exact Hb|].
  destruct (search_without_match_removes_box listed_ui "zzz" Hl Hb eq_refl)
    as (_ & _ & _ & Hscreen & Hbox & _ & Htype & _).
  split; [exact (Hscreen eq_refl)|]. split; [exact Hbox | exact (Htype "pik")].
Defined.
